(** * geocoder/hierarchy_reader.cpp: reading and merging hierarchy entries

    A shallow embedding of [HierarchyReader::ReadEntries],
    [HierarchyReader::ReadEntryMap] and [HierarchyReader::UnionEntries],
    and the properties of the merge and of the per-line parser. *)

From Stdlib Require Import ZArith Lia Bool String Ascii List.
From Stdlib Require Import Sorting.Sorted Sorting.Permutation.
From stdpp Require Import base list sorting.

Local Open Scope Z_scope.

(** ** Data model *)

(** Modelled from the spec: [base::GeoObjectId] (base/geo_object_id.hpp is
    not part of the sources at hand).  "Identifier: a 64-bit value from an
    external, totally ordered identifier space; defines merge key and
    equality."  The encoded id is kept as an integer in [0, 2^64), ordered
    by [<]. *)
Abbreviation GeoObjectId := Z.

Definition uint64_modulus : Z := 2 ^ 64.

(** [static_cast<uint64_t>(encodedId)] of an [int64_t]: the value modulo
    2^64. *)
Definition static_cast_uint64 (encodedId : Z) : GeoObjectId :=
  encodedId mod uint64_modulus.

(** [++counter] on a 64-bit unsigned counter. *)
Definition incr64 (c : Z) : Z := (c + 1) mod uint64_modulus.

(** Modelled from the spec: [Hierarchy::Type] (geocoder/hierarchy.hpp is
    not part of the sources at hand).  "type: discriminant (includes a
    sentinel value meaning 'not a real record')".  The source names the
    sentinel [Type::Count]; every other value is a real kind. *)
Inductive Type_ : Set :=
| Kind (tag : string)
| Count.

Definition Type_eqb (a b : Type_) : bool :=
  match a, b with
  | Count, Count => true
  | Kind s, Kind t => String.eqb s t
  | _, _ => false
  end.

(** Modelled from the spec: [Hierarchy::Entry].  "Entry: {id: Identifier,
    type: discriminant, payload: opaque hierarchy fields}". *)
Record Entry : Set := mkEntry {
  m_osmId : GeoObjectId;
  m_type : Type_;
  m_payload : string
}.

Definition set_osmId (e : Entry) (id : GeoObjectId) : Entry :=
  mkEntry id (m_type e) (m_payload e).

(** Modelled from the spec: [Hierarchy::ParsingStats].  "ParsingStats:
    {numLoaded: counter, badId: counter, ...other payload-failure
    counters}".  The source increments [m_numLoaded] and [m_badOsmIds];
    the remaining counters belong to the payload decoder and are gathered
    in [m_badPayload]. *)
Record ParsingStats : Set := mkStats {
  m_numLoaded : Z;
  m_badOsmIds : Z;
  m_badPayload : Z
}.

Definition incr_numLoaded (s : ParsingStats) : ParsingStats :=
  mkStats (incr64 (m_numLoaded s)) (m_badOsmIds s) (m_badPayload s).

Definition incr_badOsmIds (s : ParsingStats) : ParsingStats :=
  mkStats (m_numLoaded s) (incr64 (m_badOsmIds s)) (m_badPayload s).

(** [std::multimap<base::GeoObjectId, Entry>]: the (key, value) pairs in
    iteration order, that is by non-decreasing key, and for equal keys in
    insertion order. *)
Abbreviation Partition := (list (GeoObjectId * Entry)).

(** [multimap::emplace]: the new pair goes after every pair whose key is
    not greater (the upper bound of its equal range). *)
Fixpoint emplace (k : GeoObjectId) (e : Entry) (m : Partition) : Partition :=
  match m with
  | [] => [(k, e)]
  | (k', e') :: m' =>
      if k <? k' then (k, e) :: m else (k', e') :: emplace k e m'
  end.

Definition keys (m : Partition) : list GeoObjectId := map fst m.
Definition values (m : Partition) : list Entry := map snd m.

(** The invariant of a multimap: iteration visits the keys in
    non-decreasing order. *)
Definition multimap_ok (m : Partition) : Prop := StronglySorted Z.le (keys m).

(** The pairs of a partition filled by [ReadEntryMap]: the key is the
    identifier of the entry. *)
Definition keyed (m : Partition) : Prop :=
  Forall (fun p => m_osmId (snd p) = fst p) m.

(** [a] is empty, or both are non-empty and the first key of [a] is not
    greater than the first key of [b]. *)
Definition le_head (a b : Partition) : Prop :=
  match a, b with
  | [], _ => True
  | _ :: _, [] => False
  | (k1, _) :: _, (k2, _) :: _ => k1 <= k2
  end.

(** Entries in non-decreasing order of identifier. *)
Definition Entry_le (a b : Entry) : Prop := m_osmId a <= m_osmId b.

(** ** std::min_element over a vector *)

Section MinElement.
Context {A : Type} (lt : A -> A -> bool).

(** The loop of [std::min_element]: [smallest] is the element at index
    [si], [i] the index of the head of [l]. *)
Fixpoint min_element_from (si : nat) (smallest : A) (i : nat) (l : list A)
  : nat :=
  match l with
  | [] => si
  | x :: l' =>
      if lt x smallest then min_element_from i x (S i) l'
      else min_element_from si smallest (S i) l'
  end.

(** Index of the first smallest element; on the empty range the end
    iterator, index 0. *)
Definition min_element (l : list A) : nat :=
  match l with
  | [] => O
  | x :: l' => min_element_from O x 1%nat l'
  end.
End MinElement.

(** ** The merge: HierarchyReader::UnionEntries *)

Section Union.
(** [Entry::operator<] is declared with [Hierarchy::Entry], outside the
    sources at hand: the merge is modelled for an arbitrary one. *)
Variable entry_lt : Entry -> Entry -> bool.

(** [operator<] of [std::pair<const GeoObjectId, Entry>]. *)
Definition pair_lt (x y : GeoObjectId * Entry) : bool :=
  (fst x <? fst y) || (negb (fst y <? fst x) && entry_lt (snd x) (snd y)).

(** [operator<] of [std::multimap]: [std::lexicographical_compare] of
    the two pair sequences. *)
Fixpoint lexicographical_compare (a b : Partition) : bool :=
  match a, b with
  | [], [] => false
  | [], _ :: _ => true
  | _ :: _, [] => false
  | x :: a', y :: b' =>
      if pair_lt x y then true
      else if pair_lt y x then false
      else lexicographical_compare a' b'
  end.

(** One iteration of the [while (entryParts.size())] loop, on the pair
    (entryParts, entries). *)
Definition UnionEntries_body (st : list Partition * list Entry)
  : list Partition * list Entry :=
  let '(entryParts, entries) := st in
  let minPart := min_element lexicographical_compare entryParts in
  match entryParts !! minPart with
  | None => (entryParts, entries)
  | Some [] => (delete minPart entryParts, entries)
  | Some ((_, e) :: []) => (delete minPart entryParts, entries ++ [e])
  | Some ((_, e) :: rest) => (<[minPart := rest]> entryParts, entries ++ [e])
  end.

(** The loop, with an iteration budget: [None] when the budget runs out
    before [entryParts] is empty. *)
Fixpoint UnionEntries_loop (fuel : nat) (st : list Partition * list Entry)
  : option (list Entry) :=
  match fst st with
  | [] => Some (snd st)
  | _ :: _ =>
      match fuel with
      | O => None
      | S fuel' => UnionEntries_loop fuel' (UnionEntries_body st)
      end
  end.

(** Remaining entries plus remaining partitions. *)
Definition work (entryParts : list Partition) : nat :=
  (length (concat entryParts) + length entryParts)%nat.

(** [UnionEntries]: the loop run from the empty output.  The budget
    [work entryParts] is enough ([UnionEntries_loop_total] below). *)
Definition UnionEntries (entryParts : list Partition) : list Entry :=
  match UnionEntries_loop (work entryParts) (entryParts, []) with
  | Some entries => entries
  | None => []
  end.
End Union.

(** ** The per-line parser and the workers: HierarchyReader::ReadEntryMap *)

(** [std::string::find(c)]: position of the first [c], [None] for
    [string::npos]. *)
Fixpoint find (c : ascii) (s : string) : option nat :=
  match s with
  | EmptyString => None
  | String a s' => if Ascii.eqb a c then Some O else option_map S (find c s')
  end.

(** [s.substr(0, n)] and [s.substr(pos)]. *)
Definition substr_to (n : nat) (s : string) : string := substring 0 n s.
Definition substr_from (pos : nat) (s : string) : string :=
  substring pos (String.length s - pos) s.

Definition string_empty (s : string) : bool :=
  match s with EmptyString => true | String _ _ => false end.

(** [Entry entry;]: a default-constructed entry carries the sentinel type
    until the payload decoder fills it in. *)
Definition Entry_default : Entry := mkEntry 0 Count EmptyString.

(** How one iteration of the loop of [ReadEntryMap] ends: at one of its
    four [continue] statements, or at [localEntries.emplace]. *)
Inductive LineResult : Set :=
| EmptyLine
| BadOsmId
| DeserializeFailed
| TypeCount
| Loaded (osmId : GeoObjectId) (entry : Entry).

(** The effect of the iteration on [localEntries]. *)
Definition emplace_result (r : LineResult) (m : Partition) : Partition :=
  match r with
  | Loaded k e => emplace k e m
  | _ => m
  end.

(** The pair emplaced by the iteration, if any. *)
Definition loaded_pair (r : LineResult) : list (GeoObjectId * Entry) :=
  match r with
  | Loaded k e => [(k, e)]
  | _ => []
  end.

Section Reader.
Variable entry_lt : Entry -> Entry -> bool.

(** [strings::to_any(token, encodedId)] for an [int64_t] (base/string_utils
    is not part of the sources at hand): [Some v] when the token decodes
    to the signed 64-bit value [v], [None] when it returns false. *)
Variable to_any : string -> option Z.

(** [Entry::DeserializeFromJSON(line, stats)] (geocoder/hierarchy.cpp is
    not part of the sources at hand): from the payload, the stats and the
    entry it is called on, the returned flag, the entry and the stats it
    leaves. *)
Variable DeserializeFromJSON :
  string -> ParsingStats -> Entry -> bool * Entry * ParsingStats.

(** The body of the [while (true)] loop for one line handed out by
    [getline]: the way the iteration ends (by which [continue], or by the
    [emplace]) and the stats.  (The log messages are not modelled.) *)
Definition ReadEntryLine (line : string) (stats : ParsingStats)
  : LineResult * ParsingStats :=
  if string_empty line then (EmptyLine, stats)
  else
    match find " "%char line with
    | None => (BadOsmId, incr_badOsmIds stats)
    | Some i =>
        match to_any (substr_to i line) with
        | None => (BadOsmId, incr_badOsmIds stats)
        | Some encodedId =>
            let line' := substr_from (i + 1) line in
            let osmId := static_cast_uint64 encodedId in
            let entry := set_osmId Entry_default osmId in
            let '(ok, entry, stats) := DeserializeFromJSON line' stats entry in
            if negb ok then (DeserializeFailed, stats)
            else if Type_eqb (m_type entry) Count then (TypeCount, stats)
            else (Loaded osmId entry, incr_numLoaded stats)
        end
    end.

(** [ReadEntryMap] run by one thread alone on the stream [lines]: the
    loop until [getline] fails, then [entries = move(localEntries)]. *)
Fixpoint ReadEntryMap_loop (lines : list string) (localEntries : Partition)
  (stats : ParsingStats) : Partition * ParsingStats :=
  match lines with
  | [] => (localEntries, stats)
  | line :: rest =>
      let '(r, stats) := ReadEntryLine line stats in
      ReadEntryMap_loop rest (emplace_result r localEntries) stats
  end.

Definition ReadEntryMap (lines : list string) (stats : ParsingStats)
  : Partition * ParsingStats :=
  ReadEntryMap_loop lines [] stats.

(** Several [ReadEntryMap] threads on one stream.  The mutex serialises
    [getline], so the lines are handed out one by one in file order; the
    schedule [sched] names, line by line, the thread that obtains it.
    Each thread emplaces into its own map; the stats are shared, and a
    thread's work on a line is taken as one step.  For the maps this loses
    nothing: a thread meets its lines in file order whatever the others
    do.  For the shared stats it is an assumption: the source updates them
    outside the mutex, so with two threads or more at work the stats of
    this model are those of the source only if each update of a counter
    is atomic, which the declaration of [ParsingStats], outside the
    sources at hand, decides. *)
Fixpoint ReadEntryMap_threads (sched : list nat) (lines : list string)
  (taskEntries : list Partition) (stats : ParsingStats)
  : list Partition * ParsingStats :=
  match lines, sched with
  | line :: rest, t :: sched' =>
      let '(r, stats) := ReadEntryLine line stats in
      ReadEntryMap_threads sched' rest
        (alter (emplace_result r) t taskEntries) stats
  | _, _ => (taskEntries, stats)
  end.

(** The pairs emplaced, in file order, and the stats after the last
    line. *)
Fixpoint loaded_pairs (lines : list string) (stats : ParsingStats)
  : list (GeoObjectId * Entry) * ParsingStats :=
  match lines with
  | [] => ([], stats)
  | line :: rest =>
      let '(r, stats) := ReadEntryLine line stats in
      let '(l, stats) := loaded_pairs rest stats in
      (loaded_pair r ++ l, stats)
  end.

(** The threads spawned by [ReadEntries]: one for each [t] below
    [min(readersCount, size_t{8})].  ([readersCount] is a [size_t] that is
    only compared and counted up to: a natural number stands for it.) *)
Definition ReadEntries_tasks (readersCount : nat) : list nat :=
  seq 0 (Nat.min readersCount 8).

(** [ReadEntries]: with no thread spawned nothing is read from the
    stream. *)
Definition ReadEntries (readersCount : nat) (sched : list nat)
  (lines : list string) (stats : ParsingStats)
  : list Entry * ParsingStats :=
  let tasks := ReadEntries_tasks readersCount in
  let taskEntries := map (fun _ => @nil (GeoObjectId * Entry)) tasks in
  let '(taskEntries, stats) :=
    match tasks with
    | [] => (taskEntries, stats)
    | _ :: _ => ReadEntryMap_threads sched lines taskEntries stats
    end in
  (UnionEntries entry_lt taskEntries, stats).
End Reader.

(** A schedule for [n] threads on [lines]: one thread below [n] for each
    line. *)
Definition valid_schedule (n : nat) (lines : list string) (sched : list nat)
  : Prop :=
  length sched = length lines /\ Forall (fun t => (t < n)%nat) sched.

(** ** Instances of the declarations that are outside the sources *)

(** Modelled from the spec: [Entry::operator<].  "Identifier: ... defines
    merge key and equality": entries are compared by their identifier. *)
Definition Entry_lt (a b : Entry) : bool := m_osmId a <? m_osmId b.

Definition digit_value (c : ascii) : option Z :=
  let n := Z.of_nat (nat_of_ascii c) in
  if (48 <=? n) && (n <=? 57) then Some (n - 48) else None.

Fixpoint decimal_value (s : string) (acc : Z) : option Z :=
  match s with
  | EmptyString => Some acc
  | String c s' =>
      match digit_value c with
      | Some d => decimal_value s' (10 * acc + d)
      | None => None
      end
  end.

(** Modelled from the spec: [strings::to_any] for [int64_t].  "The
    identifier token must decode as a signed 64-bit integer": a decimal
    numeral with an optional minus sign whose value lies in
    [-2^63, 2^63). *)
Definition to_int64 (s : string) : option Z :=
  match s with
  | EmptyString => None
  | String c s' =>
      if Ascii.eqb c "-"%char then
        match s' with
        | EmptyString => None
        | String _ _ =>
            match decimal_value s' 0 with
            | Some v => if v <=? 2 ^ 63 then Some (- v) else None
            | None => None
            end
        end
      else
        match decimal_value s 0 with
        | Some v => if v <? 2 ^ 63 then Some v else None
        | None => None
        end
  end.

(** Modelled from the spec: [Entry::DeserializeFromJSON].  "The payload
    token is decoded into the structured record; decoding failure ->
    ParseFailure::BadPayload (counted, skipped).  A payload whose
    discriminant equals the sentinel value is a successful parse".  A
    payload is a brace-delimited object; the empty object names no type and
    leaves the sentinel, any other object is kept as the discriminant; a
    token that does not open an object is a failure counted in
    [m_badPayload]. *)
Definition DeserializeFromJSON_model (payload : string) (stats : ParsingStats)
  (entry : Entry) : bool * Entry * ParsingStats :=
  match payload with
  | String c rest =>
      if Ascii.eqb c "{"%char then
        if String.eqb rest "}" then (true, entry, stats)
        else (true, mkEntry (m_osmId entry) (Kind payload) payload, stats)
      else
        (false, entry,
         mkStats (m_numLoaded stats) (m_badOsmIds stats)
           (incr64 (m_badPayload stats)))
  | EmptyString =>
      (false, entry,
       mkStats (m_numLoaded stats) (m_badOsmIds stats)
         (incr64 (m_badPayload stats)))
  end.

(** The double-quote character, for the payloads of the examples. *)
Definition dq : string := String (ascii_of_nat 34) EmptyString.

Definition payload_of_type (t : string) : string :=
  ("{" ++ dq ++ "type" ++ dq ++ ":" ++ dq ++ t ++ dq ++ "}")%string.

Definition stats_zero : ParsingStats := mkStats 0 0 0.

(** ** The statements of the specification, in its words *)

(** [x] appears before [y] in [out]. *)
Definition appears_before (x y : Entry) (out : list Entry) : Prop :=
  exists l1 l2 l3, out = l1 ++ x :: l2 ++ y :: l3.

(** "entries sharing an identifier appear in ascending partition-index
    order": an entry of a partition comes before every entry with the same
    identifier of a partition with a higher index. *)
Definition ties_by_partition_index (parts : list Partition)
  (out : list Entry) : Prop :=
  forall (i j : nat) (p q : Partition) (x y : Entry),
    (i < j)%nat -> parts !! i = Some p -> parts !! j = Some q ->
    In x (values p) -> In y (values q) -> m_osmId x = m_osmId y ->
    appears_before x y out.

(** "Clamp requestedWorkers to [1, 8]". *)
Definition clamp_1_8 (requestedWorkers : nat) : nat :=
  Nat.max 1 (Nat.min requestedWorkers 8).

(** [Entry::operator<] is a strict weak ordering, as [std::min_element]
    requires of the comparison. *)
Definition strict_weak (lt : Entry -> Entry -> bool) : Prop :=
  (forall a b, lt a b = true -> lt b a = false) /\
  (forall a b c, lt a b = false -> lt b c = false -> lt a c = false).

(** The size reserved for the output of [UnionEntries]: the sum of the
    sizes of the partitions. *)
Definition UnionEntries_size (entryParts : list Partition) : nat :=
  fold_left (fun size map => (size + length map)%nat) entryParts O.

(** The payload decoder accepts [payload] as a real record: it returns
    true with a type other than the sentinel, and touches neither the
    identifier of the entry nor the stats. *)
Definition decodes_real
  (DeserializeFromJSON :
     string -> ParsingStats -> Entry -> bool * Entry * ParsingStats)
  (payload : string) : Prop :=
  forall stats entry,
    exists entry',
      DeserializeFromJSON payload stats entry = (true, entry', stats) /\
      m_osmId entry' = m_osmId entry /\ m_type entry' <> Count.

(** The payload decoder never changes the identifier of the entry it
    fills. *)
Definition keeps_osmId
  (DeserializeFromJSON :
     string -> ParsingStats -> Entry -> bool * Entry * ParsingStats) : Prop :=
  forall payload stats entry,
    m_osmId (snd (fst (DeserializeFromJSON payload stats entry)))
    = m_osmId entry.

(** ** Inputs of the examples *)

(** Two partitions that both start with identifier 5. *)
Definition tie_a : Entry := mkEntry 5 (Kind "A") "a".
Definition tie_b : Entry := mkEntry 7 (Kind "B") "b".
Definition tie_c : Entry := mkEntry 5 (Kind "C") "c".
Definition tie_d : Entry := mkEntry 6 (Kind "D") "d".
Definition tie_parts : list Partition :=
  [ [(5, tie_a); (7, tie_b)]; [(5, tie_c); (6, tie_d)] ].

(** The four lines of the example of the specification. *)
Definition example_lines : list string :=
  [ ("100 " ++ payload_of_type "A")%string;
    ("50 " ++ payload_of_type "B")%string;
    "garbage"%string;
    EmptyString ].

(** Two lines with the same identifier and different payloads. *)
Definition same_id_lines : list string :=
  [ ("5 " ++ payload_of_type "A")%string;
    ("5 " ++ payload_of_type "B")%string ].

(** ** Notions used to state further properties of the reader *)

(** The partitions that hold at least one entry, in their order. *)
Definition nonempty_parts (parts : list Partition) : list Partition :=
  List.filter (fun p => match p with [] => false | _ :: _ => true end) parts.

(** The pairs of a multimap stored under the key [k], in iteration
    order. *)
Definition equal_range (k : GeoObjectId) (m : Partition) : Partition :=
  List.filter (fun pr => fst pr =? k) m.

(** The lines that are not empty. *)
Definition nonblank (lines : list string) : list string :=
  List.filter (fun line => negb (string_empty line)) lines.

(** The test of lines 90-92 of [ReadEntryMap] on a line that is not
    empty: no space, or a token before the first space that [to_any]
    rejects. *)
Definition is_bad_id_line (to_any : string -> option Z) (line : string)
  : bool :=
  negb (string_empty line) &&
  match find " "%char line with
  | None => true
  | Some i =>
      match to_any (substr_to i line) with
      | None => true
      | Some _ => false
      end
  end.

(** The payload decoder leaves [m_numLoaded] and [m_badOsmIds] to
    [ReadEntryMap]. *)
Definition keeps_reader_counters
  (DeserializeFromJSON :
     string -> ParsingStats -> Entry -> bool * Entry * ParsingStats) : Prop :=
  forall payload stats entry,
    m_numLoaded (snd (DeserializeFromJSON payload stats entry))
    = m_numLoaded stats /\
    m_badOsmIds (snd (DeserializeFromJSON payload stats entry))
    = m_badOsmIds stats.

(** What the payload decoder returns and makes of the entry does not
    depend on the stats it is given. *)
Definition decodes_regardless_of_stats
  (DeserializeFromJSON :
     string -> ParsingStats -> Entry -> bool * Entry * ParsingStats) : Prop :=
  forall payload stats1 stats2 entry,
    fst (DeserializeFromJSON payload stats1 entry)
    = fst (DeserializeFromJSON payload stats2 entry).

(** A 64-bit unsigned value. *)
Definition is_uint64 (c : Z) : Prop := 0 <= c < uint64_modulus.

(** * drape_frontend/tile_utils.cpp *)

(** [int]: a 32-bit signed integer.  An overflowing operation has no
    defined result, which the model renders as [None]. *)
Definition INT_MIN : Z := - 2 ^ 31.
Definition INT_MAX : Z := 2 ^ 31 - 1.

Definition is_int (z : Z) : Prop := INT_MIN <= z <= INT_MAX.

(** [a - b] on [int]. *)
Definition int_sub (a b : Z) : option Z :=
  if (INT_MIN <=? a - b) && (a - b <=? INT_MAX) then Some (a - b) else None.

(** [abs(a)] on [int]: the absolute value of [INT_MIN] is not an
    [int]. *)
Definition int_abs (a : Z) : option Z :=
  if a =? INT_MIN then None else Some (Z.abs a).

(** [df::TileKey] (drape_frontend/tile_key.hpp is not part of the sources
    at hand): the two [int] coordinates that [IsNeighbours] reads. *)
Record TileKey : Set := mkTileKey {
  m_x : Z;
  m_y : Z
}.

(** [abs(a - b) < 2]. *)
Definition int_close (a b : Z) : option bool :=
  match int_sub a b with
  | None => None
  | Some d =>
      match int_abs d with
      | None => None
      | Some r => Some (r <? 2)
      end
  end.

(** [IsNeighbours]: the three operands of [&&] are evaluated from left to
    right, and only as far as needed. *)
Definition IsNeighbours (tileKey1 tileKey2 : TileKey) : option bool :=
  if negb ((m_x tileKey1 =? m_x tileKey2) && (m_y tileKey1 =? m_y tileKey2))
  then
    match int_close (m_x tileKey1) (m_x tileKey2) with
    | None => None
    | Some false => Some false
    | Some true => int_close (m_y tileKey1) (m_y tileKey2)
    end
  else Some false.

(** [ClipTileZoomByMaxDataZoom]; [upperScale] stands for what
    [scales::GetUpperScale()] returns (indexer/scales.hpp is not part of
    the sources at hand). *)
Definition ClipTileZoomByMaxDataZoom (upperScale zoom : Z) : Z :=
  if zoom <=? upperScale then zoom else upperScale.

(** [df::CoverageResult]: the tile range that [CalcTilesCoverage]
    returns. *)
Record CoverageResult : Set := mkCoverageResult {
  m_minTileX : Z;
  m_maxTileX : Z;
  m_minTileY : Z;
  m_maxTileY : Z
}.

(** The values of [for (int t = lo; t < hi; ++t)]. *)
Definition int_range (lo hi : Z) : list Z :=
  map (fun i => lo + Z.of_nat i) (seq 0 (Z.to_nat (hi - lo))).

(** The calls [processTile(tileX, tileY)] that [CalcTilesCoverage] makes,
    in order, once [result] is computed (lines 25-30): none when
    [processTile] is null, else the two nested loops.  The floating-point
    computation of [result] from the rectangle (lines 16-23) is not
    modelled. *)
Definition CalcTilesCoverage_calls (processTile_set : bool)
  (result : CoverageResult) : list (Z * Z) :=
  if processTile_set then
    flat_map
      (fun tileY =>
         map (fun tileX => (tileX, tileY))
           (int_range (m_minTileX result) (m_maxTileX result)))
      (int_range (m_minTileY result) (m_maxTileY result))
  else [].

(** * metrics/eye.cpp: the layer statistics *)

(** [std::find_if]: the position of the first element for which [pred]
    holds, with that element; [None] for the end iterator. *)
Fixpoint find_if {A : Type} (pred : A -> bool) (l : list A)
  : option (nat * A) :=
  match l with
  | [] => None
  | x :: l' =>
      if pred x then Some (O, x)
      else option_map (fun r => (S (fst r), snd r)) (find_if pred l')
  end.

Module eye.
Section Eye.
(** The types of metrics/eye_info.hpp, which is not part of the sources at
    hand, are parameters: the enumeration [Layer::Type] with its [==], the
    type of [m_useCount] with its [++], [Clock::time_point], the
    subscribers, and the members of [Info] that [RegisterLayerShown] only
    copies ([m_booking], [m_bookmarks], [m_discovery], [m_tips],
    [m_mapObjects]). *)
Context {LayerType UseCount Time Rest Subscriber : Type}.
Context `{EqDecision LayerType}.
Variable increment : UseCount -> UseCount.

Record Layer : Type := mkLayer {
  m_type : LayerType;
  m_useCount : UseCount;
  m_lastTimeUsed : Time
}.

Record Info : Type := mkInfo {
  m_layers : list Layer;
  m_rest : Rest
}.

Record Eye : Type := mkEye {
  m_info : Info;
  m_subscribers : list Subscriber
}.

(** [Layer layer;]: the default-constructed layer. *)
Variable Layer_default : Layer.

(** Lines 276-295 of [RegisterLayerShown], on the layers of the copy
    [editableInfo]: the edited layers and the local [layer]. *)
Definition RegisterLayerShown_edit (type : LayerType) (now : Time)
  (editableLayers : list Layer) : list Layer * Layer :=
  match find_if (fun layer => bool_decide (m_type layer = type))
          editableLayers with
  | Some (it, found) =>
      let layer :=
        mkLayer (m_type found) (increment (m_useCount found)) now in
      (<[it := layer]> editableLayers, layer)
  | None =>
      let layer :=
        mkLayer type (increment (m_useCount Layer_default)) now in
      (editableLayers ++ [layer], layer)
  end.

(** [Eye::RegisterLayerShown].  [now] is what [Clock::now()] returns and
    [saved] what [::Save] of the edited info returns (serialisation and
    storage are not part of the sources at hand).  The result is the
    state of the [Eye] and, when the task for the subscribers is posted,
    the layer it carries. *)
Definition RegisterLayerShown (type : LayerType) (now : Time) (saved : bool)
  (e : Eye) : Eye * option Layer :=
  let info := m_info e in
  let '(editableLayers, layer) :=
    RegisterLayerShown_edit type now (m_layers info) in
  let editableInfo := mkInfo editableLayers (m_rest info) in
  if negb saved then (e, None)
  else (mkEye editableInfo (m_subscribers e), Some layer).

(** A sequence of [RegisterLayerShown] tasks run one after the other on
    the file thread, each with its type, clock reading and outcome of
    saving. *)
Fixpoint RegisterLayerShown_all (calls : list (LayerType * Time * bool))
  (e : Eye) : Eye :=
  match calls with
  | [] => e
  | (type, now, saved) :: calls' =>
      RegisterLayerShown_all calls' (fst (RegisterLayerShown type now saved e))
  end.

(** The use count recorded for a layer type, if any. *)
Definition use_count (type : LayerType) (layers : list Layer)
  : option UseCount :=
  option_map (fun r => m_useCount (snd r))
    (find_if (fun layer => bool_decide (m_type layer = type)) layers).

(** The number of calls for [type] whose saving succeeded. *)
Definition saved_calls (type : LayerType)
  (calls : list (LayerType * Time * bool)) : nat :=
  length
    (List.filter
       (fun c => bool_decide (fst (fst c) = type) && snd c) calls).
End Eye.
End eye.

(** * Properties *)

#[local] Unset Default Proof Using.

(** ** std::min_element *)

Section MinElementFacts.
Context {A : Type} (lt : A -> A -> bool) (R : A -> A -> Prop).
Hypothesis lt_R : forall x y, lt x y = true -> R x y.
Hypothesis nlt_R : forall x y, lt x y = false -> R y x.
Hypothesis R_trans : forall x y z, R x y -> R y z -> R x z.

Lemma R_refl x : R x x.
Proof. destruct (lt x x) eqn:E; auto. Qed.

Lemma min_element_from_least (l : list A) :
  forall (pre : list A) (si : nat) (s : A),
    pre !! si = Some s ->
    (forall y, y ∈ pre -> R s y) ->
    exists m,
      (pre ++ l) !! min_element_from lt si s (length pre) l = Some m /\
      forall y, y ∈ pre ++ l -> R m y.
Proof.
  induction l as [|x l IH]; intros pre si s Hs Hmin; simpl.
  - exists s. rewrite app_nil_r. auto.
  - replace (pre ++ x :: l) with ((pre ++ [x]) ++ l)
      by (rewrite <- app_assoc; reflexivity).
    replace (S (length pre)) with (length (pre ++ [x]))
      by (rewrite length_app; simpl; lia).
    destruct (lt x s) eqn:E.
    + apply IH.
      * apply list_lookup_middle. reflexivity.
      * intros y Hy. apply elem_of_app in Hy as [Hy|Hy].
        -- eapply R_trans; [apply lt_R; exact E | auto].
        -- apply list_elem_of_singleton in Hy. subst y. apply R_refl.
    + apply IH.
      * rewrite lookup_app_l; [exact Hs|]. eapply lookup_lt_Some; eauto.
      * intros y Hy. apply elem_of_app in Hy as [Hy|Hy]; auto.
        apply list_elem_of_singleton in Hy. subst y. auto.
Qed.

Lemma min_element_least (l : list A) :
  l <> [] ->
  exists m, l !! min_element lt l = Some m /\ forall y, y ∈ l -> R m y.
Proof.
  destruct l as [|x l]; [congruence|]. intros _. simpl.
  apply (min_element_from_least l [x] O x); [reflexivity|].
  intros y Hy. apply list_elem_of_singleton in Hy. subst y. apply R_refl.
Qed.
End MinElementFacts.

Section MinElementFirst.
Context {A : Type} (lt : A -> A -> bool).
Hypothesis lt_asym : forall x y, lt x y = true -> lt y x = false.
Hypothesis lt_negtrans :
  forall x y z, lt x y = false -> lt y z = false -> lt x z = false.

Lemma lt_irrefl x : lt x x = false.
Proof.
  destruct (lt x x) eqn:E; [|reflexivity].
  rewrite (lt_asym _ _ E) in E. discriminate.
Qed.

Lemma min_element_from_first (l : list A) :
  forall (pre : list A) (si : nat) (s : A),
    pre !! si = Some s ->
    (forall y, y ∈ pre -> lt y s = false) ->
    (forall j y, (j < si)%nat -> pre !! j = Some y -> lt s y = true) ->
    exists m,
      (pre ++ l) !! min_element_from lt si s (length pre) l = Some m /\
      (forall y, y ∈ pre ++ l -> lt y m = false) /\
      (forall j y, (j < min_element_from lt si s (length pre) l)%nat ->
                   (pre ++ l) !! j = Some y -> lt m y = true).
Proof.
  induction l as [|x l IH]; intros pre si s Hs Hmin Hfirst; simpl.
  - exists s. rewrite app_nil_r. auto.
  - replace (pre ++ x :: l) with ((pre ++ [x]) ++ l)
      by (rewrite <- app_assoc; reflexivity).
    replace (S (length pre)) with (length (pre ++ [x]))
      by (rewrite length_app; simpl; lia).
    destruct (lt x s) eqn:E.
    + apply IH.
      * apply list_lookup_middle. reflexivity.
      * intros y Hy. apply elem_of_app in Hy as [Hy|Hy].
        -- eapply lt_negtrans; [apply Hmin; exact Hy | apply lt_asym; exact E].
        -- apply list_elem_of_singleton in Hy. subst y. apply lt_irrefl.
      * intros j y Hj Hy. rewrite lookup_app_l in Hy by exact Hj.
        destruct (lt x y) eqn:Exy; [reflexivity|].
        apply list_elem_of_lookup_2 in Hy.
        rewrite (lt_negtrans _ _ _ Exy (Hmin _ Hy)) in E. discriminate.
    + apply IH.
      * rewrite lookup_app_l; [exact Hs|]. eapply lookup_lt_Some; eauto.
      * intros y Hy. apply elem_of_app in Hy as [Hy|Hy]; auto.
        apply list_elem_of_singleton in Hy. subst y. auto.
      * intros j y Hj Hy. apply (Hfirst j y Hj).
        rewrite lookup_app_l in Hy; [exact Hy|].
        apply lookup_lt_Some in Hs. lia.
Qed.

(** [std::min_element] returns the first of the smallest elements: no
    element is smaller, and it is smaller than every element before
    it. *)
Lemma min_element_first (l : list A) :
  l <> [] ->
  exists m,
    l !! min_element lt l = Some m /\
    (forall y, y ∈ l -> lt y m = false) /\
    (forall j y, (j < min_element lt l)%nat -> l !! j = Some y ->
                 lt m y = true).
Proof.
  destruct l as [|x l]; [congruence|]. intros _. simpl.
  apply (min_element_from_first l [x] O x); [reflexivity| |].
  - intros y Hy. apply list_elem_of_singleton in Hy. subst y. apply lt_irrefl.
  - intros j y Hj. lia.
Qed.
End MinElementFirst.

(** ** The comparison of partitions *)

Lemma le_head_trans a b c : le_head a b -> le_head b c -> le_head a c.
Proof.
  destruct a as [|[k1 e1] a], b as [|[k2 e2] b], c as [|[k3 e3] c];
    simpl; try tauto; lia.
Qed.

Section Compare.
Variable entry_lt : Entry -> Entry -> bool.

Lemma lexicographical_compare_true a b :
  lexicographical_compare entry_lt a b = true -> le_head a b.
Proof.
  destruct a as [|[k1 e1] a], b as [|[k2 e2] b]; simpl; try easy.
  unfold pair_lt; simpl.
  destruct (k1 <? k2) eqn:E1; simpl; [lia|].
  destruct (k2 <? k1) eqn:E2; simpl; [discriminate|]. lia.
Qed.

Lemma lexicographical_compare_false a b :
  lexicographical_compare entry_lt a b = false -> le_head b a.
Proof.
  destruct a as [|[k1 e1] a], b as [|[k2 e2] b]; simpl; try easy.
  unfold pair_lt; simpl.
  destruct (k1 <? k2) eqn:E1; simpl; [discriminate|]. lia.
Qed.

(** The partition picked by [min_element]: it is empty, or its first key
    is the smallest key at the head of any partition and no partition is
    empty. *)
Lemma min_element_le_head (parts : list Partition) :
  parts <> [] ->
  exists p,
    parts !! min_element (lexicographical_compare entry_lt) parts = Some p /\
    forall q, q ∈ parts -> le_head p q.
Proof.
  apply min_element_least.
  - apply lexicographical_compare_true.
  - apply lexicographical_compare_false.
  - apply le_head_trans.
Qed.

Hypothesis entry_lt_strict_weak : strict_weak entry_lt.

Lemma pair_lt_asym x y :
  pair_lt entry_lt x y = true -> pair_lt entry_lt y x = false.
Proof.
  destruct entry_lt_strict_weak as [Hasym _].
  destruct x as [k1 e1], y as [k2 e2]. unfold pair_lt; simpl.
  destruct (k1 <? k2) eqn:E1, (k2 <? k1) eqn:E2; simpl; try lia; auto.
Qed.

Lemma pair_lt_negtrans x y z :
  pair_lt entry_lt x y = false -> pair_lt entry_lt y z = false ->
  pair_lt entry_lt x z = false.
Proof.
  destruct entry_lt_strict_weak as [_ Hneg].
  destruct x as [k1 e1], y as [k2 e2], z as [k3 e3]. unfold pair_lt; simpl.
  destruct (k1 <? k2) eqn:E12, (k2 <? k1) eqn:E21,
           (k2 <? k3) eqn:E23, (k3 <? k2) eqn:E32,
           (k1 <? k3) eqn:E13, (k3 <? k1) eqn:E31; simpl;
    try discriminate; try lia; eauto.
Qed.

Lemma lexicographical_compare_asym a :
  forall b, lexicographical_compare entry_lt a b = true ->
            lexicographical_compare entry_lt b a = false.
Proof.
  induction a as [|x a IH]; intros [|y b]; simpl; try easy.
  destruct (pair_lt entry_lt x y) eqn:Exy.
  - rewrite (pair_lt_asym _ _ Exy). reflexivity.
  - destruct (pair_lt entry_lt y x) eqn:Eyx; [discriminate|]. apply IH.
Qed.

Lemma lexicographical_compare_negtrans a :
  forall b c,
    lexicographical_compare entry_lt a b = false ->
    lexicographical_compare entry_lt b c = false ->
    lexicographical_compare entry_lt a c = false.
Proof.
  induction a as [|x a IH]; intros [|y b] [|z c]; simpl; try easy.
  destruct (pair_lt entry_lt x y) eqn:Exy; [discriminate|].
  destruct (pair_lt entry_lt y z) eqn:Eyz; [discriminate|].
  rewrite (pair_lt_negtrans _ _ _ Exy Eyz).
  destruct (pair_lt entry_lt y x) eqn:Eyx.
  - intros _ _.
    destruct (pair_lt entry_lt z x) eqn:Ezx; [reflexivity|].
    rewrite (pair_lt_negtrans _ _ _ Eyz Ezx) in Eyx. discriminate.
  - destruct (pair_lt entry_lt z y) eqn:Ezy.
    + intros _ _.
      destruct (pair_lt entry_lt z x) eqn:Ezx; [reflexivity|].
      rewrite (pair_lt_negtrans _ _ _ Ezx Exy) in Ezy. discriminate.
    + rewrite (pair_lt_negtrans _ _ _ Ezy Eyx). apply IH.
Qed.
End Compare.

(** ** The merge loop *)

Section UnionFacts.
Variable entry_lt : Entry -> Entry -> bool.

Local Abbreviation lex := (lexicographical_compare entry_lt).
Local Abbreviation body := (UnionEntries_body entry_lt).
Local Abbreviation loop := (UnionEntries_loop entry_lt).

(** What one iteration does, with the vector split around [minPart]. *)
Lemma UnionEntries_body_cases (parts : list Partition) (acc : list Entry) :
  parts <> [] ->
  exists l1 p l2,
    parts = l1 ++ p :: l2 /\
    length l1 = min_element lex parts /\
    (forall q, q ∈ parts -> le_head p q) /\
    body (parts, acc) =
      match p with
      | [] => (l1 ++ l2, acc)
      | [(_, e)] => (l1 ++ l2, acc ++ [e])
      | (_, e) :: rest => (l1 ++ rest :: l2, acc ++ [e])
      end.
Proof.
  intros Hne.
  destruct (min_element_le_head entry_lt parts Hne) as (p & Hp & Hmin).
  pose proof (lookup_lt_Some _ _ _ Hp) as Hlt.
  exists (take (min_element lex parts) parts), p,
         (drop (S (min_element lex parts)) parts).
  split; [symmetry; apply take_drop_middle; exact Hp|].
  split; [rewrite length_take; lia|].
  split; [exact Hmin|].
  unfold UnionEntries_body. cbv beta iota zeta. rewrite Hp.
  rewrite delete_take_drop.
  destruct p as [|[k e] [|x rest]]; try reflexivity.
  rewrite insert_take_drop by exact Hlt. reflexivity.
Qed.

Lemma work_app (l1 l2 : list Partition) :
  work (l1 ++ l2) = (work l1 + work l2)%nat.
Proof. unfold work. rewrite concat_app, !length_app. lia. Qed.

Lemma work_cons (p : Partition) (l : list Partition) :
  work (p :: l) = (length p + 1 + work l)%nat.
Proof. unfold work. simpl. rewrite length_app. lia. Qed.

Lemma UnionEntries_body_work (parts : list Partition) (acc : list Entry) :
  parts <> [] -> (work (fst (body (parts, acc))) < work parts)%nat.
Proof.
  intros Hne.
  destruct (UnionEntries_body_cases parts acc Hne)
    as (l1 & p & l2 & -> & _ & _ & ->).
  destruct p as [|[k e] [|x rest]]; simpl;
    rewrite !work_app, !work_cons; simpl; lia.
Qed.

(** The output so far is only appended to. *)
Lemma UnionEntries_body_acc (parts : list Partition) (acc : list Entry) :
  body (parts, acc) =
    (fst (body (parts, [])), acc ++ snd (body (parts, []))).
Proof.
  unfold UnionEntries_body. cbv beta iota zeta.
  destruct (parts !! min_element lex parts) as [[|[k e] [|x rest]]|];
    simpl; rewrite ?app_nil_r; reflexivity.
Qed.

Lemma UnionEntries_nil : UnionEntries entry_lt [] = [].
Proof. reflexivity. Qed.

Lemma UnionEntries_loop_step (f : nat) (parts : list Partition)
  (acc : list Entry) :
  parts <> [] -> loop (S f) (parts, acc) = loop f (body (parts, acc)).
Proof. destruct parts; [congruence|reflexivity]. Qed.

(** With a budget of at least [work parts] the loop returns, and what it
    returns is the output so far followed by [UnionEntries parts]. *)
Lemma UnionEntries_loop_total (fuel : nat) :
  forall (parts : list Partition) (acc : list Entry),
    (work parts <= fuel)%nat ->
    loop fuel (parts, acc) = Some (acc ++ UnionEntries entry_lt parts).
Proof.
  induction fuel as [fuel IH] using lt_wf_ind. intros parts acc Hfuel.
  destruct (decide (parts = [])) as [->|Hne].
  - destruct fuel; simpl; rewrite UnionEntries_nil, app_nil_r; reflexivity.
  - pose proof (UnionEntries_body_work parts [] Hne) as Hw.
    assert (Hunfold : UnionEntries entry_lt parts =
                      snd (body (parts, [])) ++
                      UnionEntries entry_lt (fst (body (parts, [])))).
    { unfold UnionEntries at 1.
      destruct (work parts) as [|w] eqn:Ew; [lia|].
      rewrite UnionEntries_loop_step, UnionEntries_body_acc by exact Hne.
      rewrite (IH w) by lia. reflexivity. }
    destruct fuel as [|f]; [lia|].
    rewrite UnionEntries_loop_step, UnionEntries_body_acc by exact Hne.
    rewrite (IH f) by lia.
    rewrite Hunfold, app_assoc. reflexivity.
Qed.

(** [UnionEntries] unfolded by one iteration. *)
Lemma UnionEntries_unfold (parts : list Partition) :
  parts <> [] ->
  UnionEntries entry_lt parts =
    snd (body (parts, [])) ++ UnionEntries entry_lt (fst (body (parts, []))).
Proof.
  intros Hne. unfold UnionEntries at 1.
  pose proof (UnionEntries_body_work parts [] Hne) as Hw.
  destruct (work parts) as [|w] eqn:Ew; [lia|].
  rewrite UnionEntries_loop_step, UnionEntries_body_acc by exact Hne.
  rewrite UnionEntries_loop_total by lia. reflexivity.
Qed.

(** Induction along the iterations of the loop. *)
Lemma UnionEntries_ind (P : list Partition -> Prop) :
  P [] ->
  (forall parts, parts <> [] -> P (fst (body (parts, []))) -> P parts) ->
  forall parts, P parts.
Proof.
  intros Hnil Hstep parts.
  remember (work parts) as w eqn:Ew.
  revert parts Ew. induction w as [w IH] using lt_wf_ind. intros parts Ew.
  destruct (decide (parts = [])) as [->|Hne]; [exact Hnil|].
  apply Hstep; [exact Hne|].
  eapply IH; [|reflexivity].
  pose proof (UnionEntries_body_work parts [] Hne). lia.
Qed.

(** *** One iteration keeps the entries *)

Lemma concat_values_app (l1 l2 : list Partition) :
  concat (map values (l1 ++ l2)) =
    concat (map values l1) ++ concat (map values l2).
Proof. rewrite map_app, concat_app. reflexivity. Qed.

Lemma UnionEntries_body_Permutation (parts : list Partition) :
  parts <> [] ->
  snd (body (parts, [])) ++ concat (map values (fst (body (parts, []))))
    ≡ₚ concat (map values parts).
Proof.
  intros Hne.
  destruct (UnionEntries_body_cases parts [] Hne)
    as (l1 & p & l2 & -> & _ & _ & ->).
  destruct p as [|[k e] [|x rest]]; cbn [fst snd app];
    rewrite !concat_values_app; cbn [map concat values app fst snd].
  - reflexivity.
  - apply Permutation_middle.
  - apply (Permutation_middle _ _ e).
Qed.

(** The output is a rearrangement of the entries of the partitions. *)
Lemma UnionEntries_Permutation_values (parts : list Partition) :
  UnionEntries entry_lt parts ≡ₚ concat (map values parts).
Proof.
  induction parts as [|parts Hne IH] using UnionEntries_ind.
  - rewrite UnionEntries_nil. reflexivity.
  - rewrite (UnionEntries_unfold parts Hne), IH.
    apply UnionEntries_body_Permutation, Hne.
Qed.

(** *** One iteration emits a smallest key *)

Lemma multimap_ok_head_le (k : GeoObjectId) (e : Entry) (m : Partition) :
  multimap_ok ((k, e) :: m) -> forall pr, pr ∈ (k, e) :: m -> k <= fst pr.
Proof.
  unfold multimap_ok, keys. cbn [map fst]. intros Hs pr Hin.
  apply StronglySorted_inv in Hs as [_ Hall].
  apply elem_of_cons in Hin as [->|Hin]; [simpl; lia|].
  rewrite Forall_forall in Hall. apply Hall.
  apply list_elem_of_fmap. exists pr. auto.
Qed.

Lemma multimap_ok_tail (x : GeoObjectId * Entry) (m : Partition) :
  multimap_ok (x :: m) -> multimap_ok m.
Proof.
  unfold multimap_ok, keys. cbn [map]. intros Hs.
  apply StronglySorted_inv in Hs as [Hs _]. exact Hs.
Qed.

Lemma le_head_least (parts : list Partition) (k : GeoObjectId) (e : Entry)
  (rest : Partition) :
  Forall multimap_ok parts ->
  (forall q, q ∈ parts -> le_head ((k, e) :: rest) q) ->
  forall q pr, q ∈ parts -> pr ∈ q -> k <= fst pr.
Proof.
  intros Hok Hmin q pr Hq Hpr.
  specialize (Hmin q Hq). rewrite Forall_forall in Hok. specialize (Hok q Hq).
  destruct q as [|[k2 e2] q]; [contradiction|]. simpl in Hmin.
  pose proof (multimap_ok_head_le k2 e2 q Hok pr Hpr). lia.
Qed.

(** One iteration keeps the partitions well-formed, and the entry it
    emits has an identifier not above any key that remains. *)
Lemma UnionEntries_body_least (parts : list Partition) :
  parts <> [] ->
  Forall multimap_ok parts -> Forall keyed parts ->
  Forall multimap_ok (fst (body (parts, []))) /\
  Forall keyed (fst (body (parts, []))) /\
  forall e q pr,
    e ∈ snd (body (parts, [])) -> q ∈ fst (body (parts, [])) -> pr ∈ q ->
    m_osmId e <= fst pr.
Proof.
  intros Hne Hok Hkeyed.
  destruct (UnionEntries_body_cases parts [] Hne)
    as (l1 & p & l2 & E & _ & Hmin & ->).
  pose proof Hok as Hok'. pose proof Hkeyed as Hkeyed'.
  rewrite E in Hok', Hkeyed'.
  apply Forall_app in Hok' as [Hok1 Hok2].
  apply Forall_cons in Hok2 as [Hokp Hok2].
  apply Forall_app in Hkeyed' as [Hk1 Hk2].
  apply Forall_cons in Hk2 as [Hkp Hk2].
  destruct p as [|[k e] rest].
  - cbn [fst snd]. repeat split.
    + apply Forall_app; auto.
    + apply Forall_app; auto.
    + intros e q pr He. apply elem_of_nil in He. contradiction.
  - pose proof (le_head_least parts k e rest Hok Hmin) as Hleast.
    assert (Hid : m_osmId e = k).
    { unfold keyed in Hkp. apply Forall_cons in Hkp as [Hkp _]. exact Hkp. }
    assert (Hrest_ok : multimap_ok rest) by (eapply multimap_ok_tail; eauto).
    assert (Hrest_keyed : keyed rest).
    { unfold keyed in *. apply Forall_cons in Hkp as [_ Hkp]. exact Hkp. }
    assert (Hrest_in : forall pr, pr ∈ rest -> k <= fst pr).
    { intros pr Hpr. apply (Hleast ((k, e) :: rest) pr).
      - rewrite E. apply elem_of_app. right. left.
      - right. exact Hpr. }
    assert (Hother : forall q pr, q ∈ l1 ++ l2 -> pr ∈ q -> k <= fst pr).
    { intros q pr Hq Hpr. apply (Hleast q pr); [|exact Hpr].
      rewrite E. apply elem_of_app in Hq as [Hq|Hq]; apply elem_of_app;
        [left; exact Hq | right; right; exact Hq]. }
    destruct rest as [|x rest]; cbn [fst snd app]; repeat split.
    + apply Forall_app; auto.
    + apply Forall_app; auto.
    + intros e' q pr He Hq Hpr.
      apply list_elem_of_singleton in He. subst e'. rewrite Hid. eauto.
    + apply Forall_app; split; [|apply Forall_cons]; auto.
    + apply Forall_app; split; [|apply Forall_cons]; auto.
    + intros e' q pr He Hq Hpr.
      apply list_elem_of_singleton in He. subst e'. rewrite Hid.
      apply elem_of_app in Hq as [Hq|Hq].
      * apply (Hother q pr); [apply elem_of_app; left; exact Hq | exact Hpr].
      * apply elem_of_cons in Hq as [->|Hq]; [apply Hrest_in; exact Hpr|].
        apply (Hother q pr); [apply elem_of_app; right; exact Hq | exact Hpr].
Qed.

(** Every entry of the output sits in some partition, under some key. *)
Lemma UnionEntries_elem_of (parts : list Partition) (x : Entry) :
  x ∈ UnionEntries entry_lt parts ->
  exists q pr, q ∈ parts /\ pr ∈ q /\ snd pr = x.
Proof.
  rewrite UnionEntries_Permutation_values.
  induction parts as [|p parts IH]; cbn [map concat]; intros Hx.
  - apply elem_of_nil in Hx. contradiction.
  - apply elem_of_app in Hx as [Hx|Hx].
    + apply list_elem_of_fmap in Hx as (pr & -> & Hpr).
      exists p, pr. repeat split; [left | exact Hpr].
    + destruct (IH Hx) as (q & pr & Hq & Hpr & E).
      exists q, pr. repeat split; [right; exact Hq | exact Hpr | exact E].
Qed.

(** The output is in non-decreasing order of identifier. *)
Lemma UnionEntries_StronglySorted (parts : list Partition) :
  Forall multimap_ok parts -> Forall keyed parts ->
  StronglySorted Entry_le (UnionEntries entry_lt parts).
Proof.
  induction parts as [|parts Hne IH] using UnionEntries_ind;
    intros Hok Hkeyed.
  - rewrite UnionEntries_nil. constructor.
  - destruct (UnionEntries_body_least parts Hne Hok Hkeyed)
      as (Hok' & Hkeyed' & Hleast).
    specialize (IH Hok' Hkeyed').
    rewrite (UnionEntries_unfold parts Hne).
    apply StronglySorted_app. split; [|split].
    + intros e y He Hy.
      destruct (UnionEntries_elem_of _ _ Hy) as (q & pr & Hq & Hpr & <-).
      unfold Entry_le. rewrite Forall_forall in Hkeyed'.
      specialize (Hkeyed' q Hq). unfold keyed in Hkeyed'.
      rewrite Forall_forall in Hkeyed'. rewrite (Hkeyed' pr Hpr). eauto.
    + unfold UnionEntries_body. cbv beta iota zeta.
      destruct (parts !! min_element lex parts) as [[|[k e] [|x rest]]|];
        cbn [snd app]; repeat constructor.
    + exact IH.
Qed.
End UnionFacts.

(** ** The merge: order, content, termination *)

Lemma UnionEntries_size_sum (parts : list Partition) :
  UnionEntries_size parts = length (concat parts).
Proof.
  unfold UnionEntries_size.
  assert (H : forall n, fold_left (fun size map => (size + length map)%nat)
                          parts n = (n + length (concat parts))%nat).
  { induction parts as [|p parts IH]; intros n; simpl; [lia|].
    rewrite IH, length_app. lia. }
  apply H.
Qed.

Lemma length_concat_values (parts : list Partition) :
  length (concat (map values parts)) = length (concat parts).
Proof.
  induction parts as [|p parts IH]; simpl; [reflexivity|].
  rewrite !length_app, IH. unfold values. rewrite length_map. reflexivity.
Qed.

Lemma Entry_lt_strict_weak : strict_weak Entry_lt.
Proof. unfold strict_weak, Entry_lt. split; intros; lia. Qed.

Lemma tie_parts_ok : Forall multimap_ok tie_parts /\ Forall keyed tie_parts.
Proof.
  split; repeat constructor; unfold tie_a, tie_b, tie_c, tie_d; simpl; lia.
Qed.

Lemma appears_before_lookup (x y : Entry) (out : list Entry) :
  appears_before x y out ->
  exists i j, (i < j)%nat /\ out !! i = Some x /\ out !! j = Some y.
Proof.
  intros (l1 & l2 & l3 & ->).
  exists (length l1), (length l1 + S (length l2))%nat.
  split; [lia|]. split.
  - apply list_lookup_middle. reflexivity.
  - rewrite lookup_app_r by lia.
    replace (length l1 + S (length l2) - length l1)%nat
      with (S (length l2)) by lia.
    cbn [lookup list_lookup]. apply list_lookup_middle. reflexivity.
Qed.

(** C1, as stated, fails: in [tie_parts] both partitions start with
    identifier 5, the second is the lexicographically smaller multimap, and
    its entry [tie_c] comes out before the entry [tie_a] of the first. *)
Lemma UnionEntries_ties_not_by_index :
  UnionEntries Entry_lt tie_parts = [tie_c; tie_a; tie_d; tie_b] /\
  ~ ties_by_partition_index tie_parts (UnionEntries Entry_lt tie_parts).
Proof.
  assert (E : UnionEntries Entry_lt tie_parts = [tie_c; tie_a; tie_d; tie_b])
    by reflexivity.
  split; [exact E|]. rewrite E. intros H.
  assert (Hab : appears_before tie_a tie_c [tie_c; tie_a; tie_d; tie_b]).
  { apply (H 0%nat 1%nat [(5, tie_a); (7, tie_b)] [(5, tie_c); (6, tie_d)]);
      [lia | reflexivity | reflexivity | left; reflexivity | left; reflexivity
       | reflexivity]. }
  apply appears_before_lookup in Hab as (i & j & Hij & Hi & Hj).
  destruct i as [|[|[|[|i]]]]; try discriminate Hi;
    destruct j as [|[|[|[|j]]]]; try discriminate Hj; lia.
Qed.

(** The same happens whatever [Entry::operator<] is: some well-formed
    partitions are merged with an entry of a higher-index partition ahead
    of an entry of a lower-index one that has the same identifier. *)
Lemma UnionEntries_ties_any_operator (entry_lt : Entry -> Entry -> bool) :
  exists parts,
    Forall multimap_ok parts /\ Forall keyed parts /\
    ~ ties_by_partition_index parts (UnionEntries entry_lt parts).
Proof.
  assert (Hno : forall x y z w, x <> y ->
            (appears_before y x [x; y] -> False) /\
            (appears_before y x [x; y; z; w] -> x <> z -> x <> w -> False)).
  { intros x y z w Hxy. split.
    - intros H. apply appears_before_lookup in H as (i & j & Hij & Hi & Hj).
      destruct j as [|[|j]]; try discriminate Hj; [lia|].
      cbn in Hj. congruence.
    - intros H Hz Hw.
      apply appears_before_lookup in H as (i & j & Hij & Hi & Hj).
      destruct j as [|[|[|[|j]]]]; try discriminate Hj; [lia| | |];
        cbn in Hj; congruence. }
  destruct (entry_lt tie_c tie_a) eqn:Eca; [|destruct (entry_lt tie_a tie_c) eqn:Eac].
  - exists [[(5, tie_a)]; [(5, tie_c)]].
    split; [repeat constructor|]. split; [repeat constructor|].
    assert (E : UnionEntries entry_lt [[(5, tie_a)]; [(5, tie_c)]]
                = [tie_c; tie_a]).
    { unfold UnionEntries. cbn. unfold pair_lt. cbn. rewrite Eca. cbn. reflexivity. }
    rewrite E. intros H.
    apply (proj1 (Hno tie_c tie_a tie_a tie_a ltac:(discriminate))).
    apply (H 0%nat 1%nat [(5, tie_a)] [(5, tie_c)]);
      [lia | reflexivity | reflexivity | left; reflexivity | left; reflexivity
       | reflexivity].
  - exists [[(5, tie_c)]; [(5, tie_a)]].
    split; [repeat constructor|]. split; [repeat constructor|].
    assert (E : UnionEntries entry_lt [[(5, tie_c)]; [(5, tie_a)]]
                = [tie_a; tie_c]).
    { unfold UnionEntries. cbn. unfold pair_lt. cbn. rewrite Eac. cbn. reflexivity. }
    rewrite E. intros H.
    apply (proj1 (Hno tie_a tie_c tie_a tie_a ltac:(discriminate))).
    apply (H 0%nat 1%nat [(5, tie_c)] [(5, tie_a)]);
      [lia | reflexivity | reflexivity | left; reflexivity | left; reflexivity
       | reflexivity].
  - exists tie_parts.
    split; [exact (proj1 tie_parts_ok)|]. split; [exact (proj2 tie_parts_ok)|].
    assert (E : UnionEntries entry_lt tie_parts
                = [tie_c; tie_a; tie_d; tie_b]).
    { unfold UnionEntries, tie_parts. cbn. unfold pair_lt. cbn.
      rewrite Eca, Eac. cbn. reflexivity. }
    rewrite E. intros H.
    apply (proj2 (Hno tie_c tie_a tie_d tie_b ltac:(discriminate)));
      [|discriminate|discriminate].
    apply (H 0%nat 1%nat [(5, tie_a); (7, tie_b)] [(5, tie_c); (6, tie_d)]);
      [lia | reflexivity | reflexivity | left; reflexivity | left; reflexivity
       | reflexivity].
Qed.

(** C1, amended: the output of [UnionEntries] is non-decreasing by
    identifier; each iteration emits the first entry of the partition
    picked by [std::min_element] under the multimap [operator<], and goes
    on with what remains.  When [Entry::operator<] is a strict weak
    ordering no partition is lexicographically smaller than the one
    picked, and the picked one is smaller than every partition before it:
    the lower index gives way to a lexicographically smaller partition. *)
Theorem UnionEntries_sorted_lexicographic_ties
  (entry_lt : Entry -> Entry -> bool) (parts : list Partition) :
  Forall multimap_ok parts -> Forall keyed parts ->
  Sorted Entry_le (UnionEntries entry_lt parts) /\
  (parts <> [] ->
   exists p,
     parts !! min_element (lexicographical_compare entry_lt) parts = Some p /\
     UnionEntries entry_lt parts =
       values (take 1 p) ++
       UnionEntries entry_lt (fst (UnionEntries_body entry_lt (parts, []))) /\
     (strict_weak entry_lt ->
      (forall q, q ∈ parts -> lexicographical_compare entry_lt q p = false) /\
      (forall j q,
         (j < min_element (lexicographical_compare entry_lt) parts)%nat ->
         parts !! j = Some q -> lexicographical_compare entry_lt p q = true))).
Proof.
  intros Hok Hkeyed. split.
  - apply StronglySorted_Sorted, UnionEntries_StronglySorted; assumption.
  - intros Hne.
    destruct (min_element_le_head entry_lt parts Hne) as (p & Hp & _).
    exists p. split; [exact Hp|]. split.
    + rewrite (UnionEntries_unfold entry_lt parts Hne) at 1. f_equal.
      unfold UnionEntries_body. cbv beta iota zeta. rewrite Hp.
      destruct p as [|[k e] [|x rest]]; reflexivity.
    + intros Hswo.
      destruct (min_element_first (lexicographical_compare entry_lt)
                  (lexicographical_compare_asym entry_lt Hswo)
                  (lexicographical_compare_negtrans entry_lt Hswo)
                  parts Hne) as (m & Hm & Hmin & Hfirst).
      rewrite Hp in Hm. injection Hm as <-. auto.
Qed.

Lemma UnionEntries_sorted_lexicographic_ties_witness :
  Forall multimap_ok tie_parts /\ Forall keyed tie_parts /\
  Sorted Entry_le (UnionEntries Entry_lt tie_parts) /\
  UnionEntries Entry_lt tie_parts
  = tie_c :: UnionEntries Entry_lt [[(5, tie_a); (7, tie_b)]; [(6, tie_d)]].
Proof.
  split; [exact (proj1 tie_parts_ok)|]. split; [exact (proj2 tie_parts_ok)|].
  destruct (UnionEntries_sorted_lexicographic_ties Entry_lt tie_parts
              (proj1 tie_parts_ok) (proj2 tie_parts_ok)) as [Hsorted Hstep].
  split; [exact Hsorted|]. reflexivity.
Defined.

(** C2: the output of [UnionEntries] has as many entries as the
    partitions hold together, and it is a rearrangement of them: every
    entry of every partition is in the output exactly as often as in the
    partitions. *)
Theorem UnionEntries_keeps_every_entry
  (entry_lt : Entry -> Entry -> bool) (parts : list Partition) :
  length (UnionEntries entry_lt parts) = UnionEntries_size parts /\
  length (UnionEntries entry_lt parts) = list_sum (map length parts) /\
  UnionEntries entry_lt parts ≡ₚ concat (map values parts).
Proof.
  pose proof (UnionEntries_Permutation_values entry_lt parts) as HP.
  assert (HL : length (UnionEntries entry_lt parts) = length (concat parts)).
  { rewrite HP. apply length_concat_values. }
  split; [|split].
  - rewrite UnionEntries_size_sum. exact HL.
  - rewrite HL. clear. induction parts as [|p parts IH]; simpl; [reflexivity|].
    rewrite length_app, IH. reflexivity.
  - exact HP.
Qed.

(** C10: [UnionEntries] terminates on every vector of partitions.  An
    iteration on a non-empty vector either takes one entry out of a
    partition or erases an empty partition, so [work], the entries plus
    the partitions that remain, strictly decreases; with a budget of
    [work parts] iterations or more the loop returns. *)
Theorem UnionEntries_terminates
  (entry_lt : Entry -> Entry -> bool) (parts : list Partition)
  (entries : list Entry) :
  (parts <> [] ->
   let parts' := fst (UnionEntries_body entry_lt (parts, entries)) in
   ((length (concat parts') + 1 = length (concat parts) /\
     length parts' <= length parts)%nat \/
    (length (concat parts') = length (concat parts) /\
     length parts' + 1 = length parts)%nat) /\
   (work parts' < work parts)%nat) /\
  (forall fuel, (work parts <= fuel)%nat ->
     UnionEntries_loop entry_lt fuel (parts, entries)
     = Some (entries ++ UnionEntries entry_lt parts)) /\
  UnionEntries_loop entry_lt (work []) ([], entries) = Some entries.
Proof.
  split; [|split].
  - intros Hne parts'. split.
    + subst parts'.
      destruct (UnionEntries_body_cases entry_lt parts entries Hne)
        as (l1 & p & l2 & -> & _ & _ & ->).
      destruct p as [|[k e] [|x rest]]; cbn [fst];
        rewrite !concat_app, !length_app; simpl;
        rewrite ?length_app; simpl; lia.
    + apply UnionEntries_body_work, Hne.
  - intros fuel Hfuel. apply UnionEntries_loop_total, Hfuel.
  - reflexivity.
Qed.

Lemma UnionEntries_terminates_witness :
  UnionEntries_loop Entry_lt (work [[]; [(5, tie_a)]; []])
    ([[]; [(5, tie_a)]; []], [])
  = Some [tie_a].
Proof.
  exact (proj1 (proj2 (UnionEntries_terminates Entry_lt
                         [[]; [(5, tie_a)]; []] []))
           (work [[]; [(5, tie_a)]; []]) (le_n _)).
Defined.

(** ** The multimap of a worker *)

Lemma emplace_Permutation (k : GeoObjectId) (e : Entry) (m : Partition) :
  emplace k e m ≡ₚ (k, e) :: m.
Proof.
  induction m as [|[k' e'] m IH]; simpl; [reflexivity|].
  destruct (k <? k'); [reflexivity|].
  rewrite IH. apply perm_swap.
Qed.

Lemma emplace_multimap_ok (k : GeoObjectId) (e : Entry) (m : Partition) :
  multimap_ok m -> multimap_ok (emplace k e m).
Proof.
  unfold multimap_ok, keys.
  induction m as [|[k' e'] m IH]; simpl; intros Hs.
  - repeat constructor.
  - apply StronglySorted_inv in Hs as [Hs Hall].
    destruct (k <? k') eqn:E; cbn [map fst].
    + constructor; [constructor; assumption|].
      constructor; [lia|].
      eapply Forall_impl; [exact Hall|]. simpl. intros; lia.
    + constructor; [apply IH; exact Hs|].
      assert (HP : map fst (emplace k e m) ≡ₚ k :: map fst m).
      { rewrite emplace_Permutation. reflexivity. }
      rewrite HP. constructor; [lia | exact Hall].
Qed.

Lemma emplace_result_Permutation (r : LineResult) (m : Partition) :
  emplace_result r m ≡ₚ loaded_pair r ++ m.
Proof. destruct r; simpl; try reflexivity. apply emplace_Permutation. Qed.

Lemma emplace_result_multimap_ok (r : LineResult) (m : Partition) :
  multimap_ok m -> multimap_ok (emplace_result r m).
Proof. destruct r; simpl; auto using emplace_multimap_ok. Qed.

Lemma concat_alter_emplace_result (r : LineResult) (parts : list Partition) :
  forall t, (t < length parts)%nat ->
    concat (alter (emplace_result r) t parts) ≡ₚ loaded_pair r ++ concat parts.
Proof.
  induction parts as [|p parts IH]; intros t Ht; simpl in Ht; [lia|].
  destruct t as [|t]; cbn [alter list_alter concat].
  - rewrite emplace_result_Permutation, app_assoc. reflexivity.
  - rewrite IH by lia.
    rewrite !app_assoc. apply Permutation_app_tail, Permutation_app_comm.
Qed.

Lemma Forall_concat_iff {A : Type} (P : A -> Prop) (ls : list (list A)) :
  Forall (Forall P) ls <-> Forall P (concat ls).
Proof.
  induction ls as [|l ls IH]; simpl.
  - split; constructor.
  - rewrite Forall_cons, Forall_app, IH. reflexivity.
Qed.

(** ** The workers *)

Section ReaderFacts.
Variable entry_lt : Entry -> Entry -> bool.
Variable to_any : string -> option Z.
Variable DeserializeFromJSON :
  string -> ParsingStats -> Entry -> bool * Entry * ParsingStats.

Local Abbreviation line_step := (ReadEntryLine to_any DeserializeFromJSON).
Local Abbreviation threads :=
  (ReadEntryMap_threads to_any DeserializeFromJSON).
Local Abbreviation loaded := (loaded_pairs to_any DeserializeFromJSON).

(** The decoder is called on the payload with the entry that carries the
    reinterpreted identifier; this lemma names the three outcomes. *)
Lemma ReadEntryLine_decoded (line : string) (stats : ParsingStats)
  (i : nat) (v : Z) :
  find " "%char line = Some i ->
  to_any (substr_to i line) = Some v ->
  line_step line stats =
    let '(ok, entry, stats') :=
      DeserializeFromJSON (substr_from (i + 1) line) stats
        (set_osmId Entry_default (static_cast_uint64 v)) in
    if negb ok then (DeserializeFailed, stats')
    else if Type_eqb (m_type entry) Count then (TypeCount, stats')
    else (Loaded (static_cast_uint64 v) entry, incr_numLoaded stats').
Proof.
  intros Hfind Hany. unfold ReadEntryLine.
  destruct line as [|c line]; [discriminate|].
  cbn [string_empty]. rewrite Hfind, Hany. reflexivity.
Qed.

Lemma Type_eqb_Count (t : Type_) : Type_eqb t Count = true <-> t = Count.
Proof. destruct t; simpl; split; congruence. Qed.

(** An emplaced entry never has the sentinel type. *)
Lemma ReadEntryLine_Loaded_type (line : string) (stats : ParsingStats)
  (k : GeoObjectId) (e : Entry) :
  fst (line_step line stats) = Loaded k e -> m_type e <> Count.
Proof.
  unfold ReadEntryLine.
  destruct (string_empty line); [discriminate|].
  destruct (find " "%char line) as [i|]; [|discriminate].
  destruct (to_any (substr_to i line)) as [v|]; [|discriminate].
  destruct (DeserializeFromJSON _ _ _) as [[ok e'] st'].
  destruct ok; cbn [negb]; [|discriminate].
  destruct (Type_eqb (m_type e') Count) eqn:E; [discriminate|].
  cbn [fst]. intros [= _ <-]. intros Hc.
  apply Type_eqb_Count in Hc. congruence.
Qed.

(** When the decoder keeps the identifier, an entry is emplaced under its
    own identifier. *)
Lemma ReadEntryLine_Loaded_keyed (line : string) (stats : ParsingStats)
  (k : GeoObjectId) (e : Entry) :
  keeps_osmId DeserializeFromJSON ->
  fst (line_step line stats) = Loaded k e -> m_osmId e = k.
Proof.
  intros Hkeeps. unfold ReadEntryLine.
  destruct (string_empty line); [discriminate|].
  destruct (find " "%char line) as [i|]; [|discriminate].
  destruct (to_any (substr_to i line)) as [v|]; [|discriminate].
  specialize (Hkeeps (substr_from (i + 1) line) stats
                (set_osmId Entry_default (static_cast_uint64 v))).
  destruct (DeserializeFromJSON _ _ _) as [[ok e'] st'].
  destruct ok; cbn [negb]; [|discriminate].
  destruct (Type_eqb (m_type e') Count); [discriminate|].
  cbn [fst snd] in *. intros [= <- <-]. exact Hkeeps.
Qed.

Lemma loaded_pairs_Forall (P : GeoObjectId * Entry -> Prop) :
  (forall line stats k e,
      fst (line_step line stats) = Loaded k e -> P (k, e)) ->
  forall lines stats, Forall P (fst (loaded lines stats)).
Proof.
  intros HP lines. induction lines as [|line lines IH]; intros stats; simpl.
  - constructor.
  - specialize (HP line stats).
    destruct (line_step line stats) as [r st'].
    specialize (IH st'). destruct (loaded lines st') as [l st''].
    cbn [fst] in *. apply Forall_app. split; [|exact IH].
    destruct r; simpl; constructor; auto.
Qed.

(** Whatever the schedule, the threads together hold the pairs of
    [loaded_pairs], each map stays ordered, and the stats end as in the
    sequential reading. *)
Lemma ReadEntryMap_threads_spec (lines : list string) :
  forall (sched : list nat) (parts : list Partition) (stats : ParsingStats),
    length sched = length lines ->
    Forall (fun t => (t < length parts)%nat) sched ->
    snd (threads sched lines parts stats) = snd (loaded lines stats) /\
    concat (fst (threads sched lines parts stats))
      ≡ₚ concat parts ++ fst (loaded lines stats) /\
    (Forall multimap_ok parts ->
     Forall multimap_ok (fst (threads sched lines parts stats))).
Proof.
  induction lines as [|line lines IH]; intros sched parts stats Hlen Hsched.
  - destruct sched; simpl; rewrite ?app_nil_r; auto.
  - destruct sched as [|t sched]; [discriminate|].
    apply Forall_cons in Hsched as [Ht Hsched].
    cbn [ReadEntryMap_threads loaded_pairs].
    destruct (line_step line stats) as [r st'].
    specialize (IH sched (alter (emplace_result r) t parts) st').
    destruct IH as (IH1 & IH2 & IH3).
    { simpl in Hlen. lia. }
    { rewrite length_alter. exact Hsched. }
    destruct (loaded lines st') as [l st''].
    cbn [fst snd] in *. split; [exact IH1|]. split.
    + rewrite IH2, concat_alter_emplace_result by exact Ht.
      rewrite !app_assoc. apply Permutation_app_tail, Permutation_app_comm.
    + intros Hok. apply IH3. apply Forall_alter; [exact Hok|].
      intros p _ Hp. apply emplace_result_multimap_ok, Hp.
Qed.
End ReaderFacts.

(** ** HierarchyReader::ReadEntries *)

Lemma NoDup_map_inj_on {A B : Type} (f : A -> B) (l : list A) (x y : A) :
  NoDup (map f l) -> x ∈ l -> y ∈ l -> f x = f y -> x = y.
Proof.
  induction l as [|a l IH]; simpl; intros Hnd Hx Hy Hf.
  - apply elem_of_nil in Hx. contradiction.
  - apply NoDup_cons in Hnd as [Hna Hnd].
    apply elem_of_cons in Hx as [->|Hx]; apply elem_of_cons in Hy as [->|Hy];
      auto.
    + exfalso. apply Hna. rewrite Hf. apply list_elem_of_fmap. eauto.
    + exfalso. apply Hna. rewrite <- Hf. apply list_elem_of_fmap. eauto.
Qed.

Lemma concat_map_values (parts : list Partition) :
  concat (map values parts) = map snd (concat parts).
Proof.
  induction parts as [|p parts IH]; simpl; [reflexivity|].
  rewrite map_app, IH. reflexivity.
Qed.

Lemma empty_taskEntries (tasks : list nat) :
  let taskEntries := map (fun _ => @nil (GeoObjectId * Entry)) tasks in
  length taskEntries = length tasks /\ concat taskEntries = [] /\
  Forall multimap_ok taskEntries.
Proof.
  induction tasks as [|t tasks (IH1 & IH2 & IH3)]; simpl.
  - repeat split; constructor.
  - repeat split; [lia | exact IH2 |].
    constructor; [constructor | exact IH3].
Qed.

Lemma ReadEntries_tasks_length (readersCount : nat) :
  length (ReadEntries_tasks readersCount) = Nat.min readersCount 8.
Proof. unfold ReadEntries_tasks. apply length_seq. Qed.

Section ReadEntriesFacts.
Variable entry_lt : Entry -> Entry -> bool.
Variable to_any : string -> option Z.
Variable DeserializeFromJSON :
  string -> ParsingStats -> Entry -> bool * Entry * ParsingStats.

Local Abbreviation loaded := (loaded_pairs to_any DeserializeFromJSON).
Local Abbreviation read :=
  (ReadEntries entry_lt to_any DeserializeFromJSON).

(** With at least one worker and whatever the schedule: the stats are
    those of the sequential reading, and the output holds the emplaced
    entries in non-decreasing order of identifier. *)
Lemma ReadEntries_spec (readersCount : nat) (sched : list nat)
  (lines : list string) (stats : ParsingStats) :
  (1 <= readersCount)%nat ->
  valid_schedule (Nat.min readersCount 8) lines sched ->
  Forall (fun pr => m_osmId (snd pr) = fst pr) (fst (loaded lines stats)) ->
  snd (read readersCount sched lines stats) = snd (loaded lines stats) /\
  fst (read readersCount sched lines stats)
    ≡ₚ map snd (fst (loaded lines stats)) /\
  StronglySorted Entry_le (fst (read readersCount sched lines stats)).
Proof.
  intros Hn [Hlen Hsched] Hkeyed. unfold ReadEntries.
  pose proof (ReadEntries_tasks_length readersCount) as Htasks.
  destruct (empty_taskEntries (ReadEntries_tasks readersCount))
    as (Hl & Hc & Hok).
  destruct (ReadEntries_tasks readersCount) as [|t0 tasks] eqn:Et.
  { simpl in Htasks. lia. }
  rewrite <- Et in *. clear Et t0 tasks.
  set (parts0 := map (fun _ => []) (ReadEntries_tasks readersCount)) in *.
  destruct (ReadEntryMap_threads_spec to_any DeserializeFromJSON lines sched
              parts0 stats Hlen) as (Hstats & Hperm & Hok').
  { rewrite Hl, Htasks. exact Hsched. }
  destruct (ReadEntryMap_threads to_any DeserializeFromJSON sched lines
              parts0 stats) as [parts' st'].
  cbn [fst snd] in *. rewrite Hc in Hperm. cbn [app] in Hperm.
  split; [exact Hstats|]. split.
  - rewrite UnionEntries_Permutation_values, concat_map_values, Hperm.
    reflexivity.
  - apply UnionEntries_StronglySorted; [apply Hok', Hok|].
    apply Forall_concat_iff. rewrite Hperm. exact Hkeyed.
Qed.

Lemma loaded_pairs_keyed (lines : list string) (stats : ParsingStats) :
  keeps_osmId DeserializeFromJSON ->
  Forall (fun pr => m_osmId (snd pr) = fst pr) (fst (loaded lines stats)).
Proof.
  intros Hkeeps. apply loaded_pairs_Forall.
  intros line st k e. apply ReadEntryLine_Loaded_keyed, Hkeeps.
Qed.

(** Two runs whose emplaced identifiers are pairwise distinct agree. *)
Lemma ReadEntries_agree (n1 n2 : nat) (sched1 sched2 : list nat)
  (lines : list string) (stats : ParsingStats) :
  Forall (fun pr => m_osmId (snd pr) = fst pr) (fst (loaded lines stats)) ->
  NoDup (map fst (fst (loaded lines stats))) ->
  (1 <= n1)%nat -> (1 <= n2)%nat ->
  valid_schedule (Nat.min n1 8) lines sched1 ->
  valid_schedule (Nat.min n2 8) lines sched2 ->
  read n1 sched1 lines stats = read n2 sched2 lines stats.
Proof.
  intros Hkeyed Hnd H1 H2 Hs1 Hs2.
  destruct (ReadEntries_spec n1 sched1 lines stats H1 Hs1 Hkeyed)
    as (Hst1 & Hp1 & Hsorted1).
  destruct (ReadEntries_spec n2 sched2 lines stats H2 Hs2 Hkeyed)
    as (Hst2 & Hp2 & Hsorted2).
  destruct (read n1 sched1 lines stats) as [out1 st1].
  destruct (read n2 sched2 lines stats) as [out2 st2].
  cbn [fst snd] in *. f_equal; [|congruence].
  apply (StronglySorted_unique_strong Entry_le); try assumption.
  - intros x1 x2 Hx1 Hx2 Hle1 Hle2. unfold Entry_le in *.
    rewrite Hp1 in Hx1. rewrite Hp2 in Hx2.
    apply list_elem_of_fmap in Hx1 as (pr1 & -> & Hpr1).
    apply list_elem_of_fmap in Hx2 as (pr2 & -> & Hpr2).
    f_equal. apply (NoDup_map_inj_on fst _ _ _ Hnd Hpr1 Hpr2).
    rewrite Forall_forall in Hkeyed.
    rewrite <- (Hkeyed _ Hpr1), <- (Hkeyed _ Hpr2). lia.
  - rewrite Hp1, Hp2. reflexivity.
Qed.
End ReadEntriesFacts.

(** ** The instances *)

Lemma digit_value_range (c : ascii) (d : Z) :
  digit_value c = Some d -> 0 <= d <= 9.
Proof.
  unfold digit_value.
  destruct (48 <=? Z.of_nat (nat_of_ascii c)) eqn:E1;
    destruct (Z.of_nat (nat_of_ascii c) <=? 57) eqn:E2; simpl;
    intros [= <-]. lia.
Qed.

Lemma decimal_value_nonneg (s : string) :
  forall acc v, 0 <= acc -> decimal_value s acc = Some v -> 0 <= v.
Proof.
  induction s as [|c s IH]; simpl; intros acc v Hacc.
  - intros [= <-]. exact Hacc.
  - destruct (digit_value c) as [d|] eqn:Ed; [|discriminate].
    apply digit_value_range in Ed. apply IH. lia.
Qed.

(** The modelled decoder returns signed 64-bit values. *)
Lemma to_int64_range (s : string) (v : Z) :
  to_int64 s = Some v -> - 2 ^ 63 <= v < 2 ^ 63.
Proof.
  unfold to_int64. destruct s as [|c s]; [discriminate|].
  destruct (Ascii.eqb c "-"%char).
  - destruct s as [|c' s']; [discriminate|].
    destruct (decimal_value (String c' s') 0) as [w|] eqn:Ew; [|discriminate].
    apply decimal_value_nonneg in Ew; [|lia].
    destruct (w <=? 2 ^ 63) eqn:E; intros [= <-]. lia.
  - destruct (decimal_value (String c s) 0) as [w|] eqn:Ew; [|discriminate].
    apply decimal_value_nonneg in Ew; [|lia].
    destruct (w <? 2 ^ 63) eqn:E; intros [= <-]. lia.
Qed.

Lemma DeserializeFromJSON_model_keeps_osmId :
  keeps_osmId DeserializeFromJSON_model.
Proof.
  intros payload stats entry. unfold DeserializeFromJSON_model.
  destruct payload as [|c rest]; [reflexivity|].
  destruct (Ascii.eqb c "{"%char); [|reflexivity].
  destruct (String.eqb rest "}"); reflexivity.
Qed.

Lemma DeserializeFromJSON_model_decodes_real (t : string) :
  decodes_real DeserializeFromJSON_model (payload_of_type t).
Proof.
  intros stats entry.
  exists (mkEntry (m_osmId entry) (Kind (payload_of_type t))
            (payload_of_type t)).
  repeat split; discriminate.
Qed.

(** ** The worker count (C3) *)

(** C3, as stated, fails: with 0 requested no thread is spawned, not
    one. *)
Lemma ReadEntries_zero_readers_spawns_none :
  length (ReadEntries_tasks 0) = 0%nat /\
  length (ReadEntries_tasks 0) <> clamp_1_8 0.
Proof. split; [reflexivity | discriminate]. Qed.

(** C3, amended: [ReadEntries] caps the requested worker count at 8 and
    has no lower bound: it spawns min(requested, 8) threads, so 20
    requested gives 8, a request in [1, 8] is kept, and 0 requested gives
    no thread at all; then no line is read, the result is empty and the
    stats are untouched. *)
Theorem ReadEntries_caps_readers_at_8 (readersCount : nat) :
  length (ReadEntries_tasks readersCount) = Nat.min readersCount 8 /\
  (length (ReadEntries_tasks readersCount) <= 8)%nat /\
  ((1 <= readersCount)%nat ->
   length (ReadEntries_tasks readersCount) = clamp_1_8 readersCount) /\
  length (ReadEntries_tasks 20) = 8%nat /\
  length (ReadEntries_tasks 0) = 0%nat /\
  (forall entry_lt to_any DeserializeFromJSON sched lines stats,
     ReadEntries entry_lt to_any DeserializeFromJSON 0 sched lines stats
     = ([], stats)).
Proof.
  rewrite ReadEntries_tasks_length. unfold clamp_1_8.
  repeat split; try reflexivity; lia.
Qed.

Lemma ReadEntries_caps_readers_at_8_witness :
  length (ReadEntries_tasks 5) = clamp_1_8 5 /\
  length (ReadEntries_tasks 20) = 8%nat.
Proof.
  destruct (ReadEntries_caps_readers_at_8 5) as (_ & _ & Hclamp & H20 & _).
  split; [apply Hclamp; lia | exact H20].
Defined.

(** ** One line (C4, C7, C8) *)

Lemma static_cast_uint64_range (v : Z) :
  0 <= static_cast_uint64 v < uint64_modulus.
Proof. unfold static_cast_uint64, uint64_modulus. apply Z.mod_pos_bound. lia. Qed.

(** The cast keeps the 64 low bits, which for a signed 64-bit value is its
    two's-complement pattern. *)
Lemma static_cast_uint64_testbit (v n : Z) :
  0 <= n < 64 -> Z.testbit (static_cast_uint64 v) n = Z.testbit v n.
Proof.
  intros Hn. unfold static_cast_uint64, uint64_modulus.
  apply Z.mod_pow2_bits_low. lia.
Qed.

Lemma static_cast_uint64_nonneg (v : Z) :
  0 <= v < 2 ^ 63 -> static_cast_uint64 v = v.
Proof.
  intros Hv. unfold static_cast_uint64, uint64_modulus.
  apply Z.mod_small. lia.
Qed.

Lemma static_cast_uint64_neg (v : Z) :
  - 2 ^ 63 <= v < 0 -> static_cast_uint64 v = v + 2 ^ 64.
Proof.
  intros Hv. unfold static_cast_uint64, uint64_modulus.
  symmetry. apply (Z.mod_unique_pos _ _ (-1)); lia.
Qed.

(** C4: on a line with a space, the token before the first space is
    decoded as a signed 64-bit integer and the iteration ends at the
    bad-id [continue] exactly when that decoding fails.  A decoded value
    [v] becomes the identifier [static_cast<uint64_t>(v)]: the same 64
    bits, so [v] itself when it is not negative and [v + 2^64] when it is
    negative, which is accepted all the same. *)
Theorem ReadEntryLine_signed_identifier
  (to_any : string -> option Z)
  (DeserializeFromJSON :
     string -> ParsingStats -> Entry -> bool * Entry * ParsingStats)
  (line : string) (stats : ParsingStats) (i : nat) :
  (forall s v, to_any s = Some v -> - 2 ^ 63 <= v < 2 ^ 63) ->
  find " "%char line = Some i ->
  (fst (ReadEntryLine to_any DeserializeFromJSON line stats) = BadOsmId <->
   to_any (substr_to i line) = None) /\
  (to_any (substr_to i line) = None ->
   ReadEntryLine to_any DeserializeFromJSON line stats
   = (BadOsmId, incr_badOsmIds stats)) /\
  (forall v, to_any (substr_to i line) = Some v ->
     ReadEntryLine to_any DeserializeFromJSON line stats =
       (let '(ok, entry, stats') :=
          DeserializeFromJSON (substr_from (i + 1) line) stats
            (set_osmId Entry_default (static_cast_uint64 v)) in
        if negb ok then (DeserializeFailed, stats')
        else if Type_eqb (m_type entry) Count then (TypeCount, stats')
        else (Loaded (static_cast_uint64 v) entry, incr_numLoaded stats')) /\
     0 <= static_cast_uint64 v < 2 ^ 64 /\
     (forall n, 0 <= n < 64 ->
        Z.testbit (static_cast_uint64 v) n = Z.testbit v n) /\
     (0 <= v -> static_cast_uint64 v = v) /\
     (v < 0 -> static_cast_uint64 v = v + 2 ^ 64 /\
               2 ^ 63 <= static_cast_uint64 v)).
Proof.
  intros Hrange Hfind.
  assert (Hnone : to_any (substr_to i line) = None ->
                  ReadEntryLine to_any DeserializeFromJSON line stats
                  = (BadOsmId, incr_badOsmIds stats)).
  { intros Hany. unfold ReadEntryLine.
    destruct line as [|c line]; [discriminate|].
    cbn [string_empty]. rewrite Hfind, Hany. reflexivity. }
  split; [|split].
  - split.
    + destruct (to_any (substr_to i line)) as [v|] eqn:Hany; [|reflexivity].
      rewrite (ReadEntryLine_decoded to_any DeserializeFromJSON line stats i v
                 Hfind Hany).
      destruct (DeserializeFromJSON _ _ _) as [[ok e] st'].
      destruct ok; cbn [negb]; [|discriminate].
      destruct (Type_eqb (m_type e) Count); discriminate.
    + intros Hany. rewrite (Hnone Hany). reflexivity.
  - exact Hnone.
  - intros v Hany. specialize (Hrange _ _ Hany).
    split; [apply ReadEntryLine_decoded; assumption|].
    split; [apply static_cast_uint64_range|].
    split; [intros n; apply static_cast_uint64_testbit|].
    split.
    + intros Hv. apply static_cast_uint64_nonneg. lia.
    + intros Hv. rewrite static_cast_uint64_neg by lia. lia.
Qed.

Lemma ReadEntryLine_signed_identifier_witness :
  (forall s v, to_int64 s = Some v -> - 2 ^ 63 <= v < 2 ^ 63) /\
  find " "%char "-1 {x}" = Some 2%nat /\
  fst (ReadEntryLine to_int64 DeserializeFromJSON_model "-1 {x}" stats_zero)
  <> BadOsmId /\
  static_cast_uint64 (-1) = -1 + 2 ^ 64.
Proof.
  split; [exact to_int64_range|]. split; [reflexivity|].
  destruct (ReadEntryLine_signed_identifier to_int64 DeserializeFromJSON_model
              "-1 {x}" stats_zero 2 to_int64_range eq_refl)
    as (Hiff & _ & Hsome).
  split.
  - intros H. apply Hiff in H. discriminate H.
  - destruct (Hsome (-1) eq_refl) as (_ & _ & _ & _ & Hneg).
    apply Hneg. lia.
Defined.

(** C7, as stated, fails on the empty line: it has no separator, and the
    loop skips it before looking for one, counting nothing. *)
Lemma ReadEntryLine_empty_line_not_bad_id :
  find " "%char EmptyString = None /\
  ReadEntryLine to_int64 DeserializeFromJSON_model EmptyString stats_zero
  = (EmptyLine, stats_zero) /\
  m_badOsmIds
    (snd (ReadEntryLine to_int64 DeserializeFromJSON_model EmptyString
            stats_zero))
  <> m_badOsmIds stats_zero + 1.
Proof. repeat split. discriminate. Qed.

(** C7, amended: a line that is not empty and has no space, or whose
    token before the first space does not decode as a signed 64-bit
    integer, ends the iteration at the bad-id [continue]: [m_badOsmIds] is
    incremented once (as a 64-bit counter) and nothing else changes, no
    pair is emplaced, and the loop goes on with the next line. *)
Theorem ReadEntryLine_bad_id
  (to_any : string -> option Z)
  (DeserializeFromJSON :
     string -> ParsingStats -> Entry -> bool * Entry * ParsingStats)
  (line : string) (stats : ParsingStats) :
  line <> EmptyString ->
  (find " "%char line = None \/
   exists i, find " "%char line = Some i /\
             to_any (substr_to i line) = None) ->
  ReadEntryLine to_any DeserializeFromJSON line stats
  = (BadOsmId, incr_badOsmIds stats) /\
  m_badOsmIds (incr_badOsmIds stats) = incr64 (m_badOsmIds stats) /\
  (0 <= m_badOsmIds stats < 2 ^ 64 - 1 ->
   m_badOsmIds (incr_badOsmIds stats) = m_badOsmIds stats + 1) /\
  m_numLoaded (incr_badOsmIds stats) = m_numLoaded stats /\
  m_badPayload (incr_badOsmIds stats) = m_badPayload stats /\
  loaded_pair BadOsmId = [] /\
  (forall rest localEntries,
     ReadEntryMap_loop to_any DeserializeFromJSON (line :: rest)
       localEntries stats
     = ReadEntryMap_loop to_any DeserializeFromJSON rest localEntries
         (incr_badOsmIds stats)) /\
  (forall t sched rest taskEntries,
     ReadEntryMap_threads to_any DeserializeFromJSON (t :: sched)
       (line :: rest) taskEntries stats
     = ReadEntryMap_threads to_any DeserializeFromJSON sched rest
         taskEntries (incr_badOsmIds stats)).
Proof.
  intros Hne Hbad.
  assert (Hstep : ReadEntryLine to_any DeserializeFromJSON line stats
                  = (BadOsmId, incr_badOsmIds stats)).
  { unfold ReadEntryLine. destruct line as [|c line]; [congruence|].
    cbn [string_empty].
    destruct Hbad as [-> | (i & -> & ->)]; reflexivity. }
  split; [exact Hstep|].
  split; [reflexivity|].
  split.
  { intros Hrange. cbn [incr_badOsmIds m_badOsmIds]. unfold incr64.
    apply Z.mod_small. unfold uint64_modulus. lia. }
  split; [reflexivity|]. split; [reflexivity|]. split; [reflexivity|].
  split.
  - intros rest localEntries. cbn [ReadEntryMap_loop]. rewrite Hstep.
    reflexivity.
  - intros t sched rest taskEntries. cbn [ReadEntryMap_threads].
    rewrite Hstep. cbn [emplace_result].
    rewrite list_alter_id by reflexivity. reflexivity.
Qed.

Lemma ReadEntryLine_bad_id_witness :
  ReadEntryLine to_int64 DeserializeFromJSON_model "notanumber {}" stats_zero
  = (BadOsmId, mkStats 0 1 0) /\
  loaded_pair
    (fst (ReadEntryLine to_int64 DeserializeFromJSON_model "notanumber {}"
            stats_zero)) = [].
Proof.
  assert (Hne : "notanumber {}"%string <> EmptyString) by discriminate.
  assert (Hbad : find " "%char "notanumber {}" = None \/
                 exists i, find " "%char "notanumber {}" = Some i /\
                           to_int64 (substr_to i "notanumber {}") = None).
  { right. exists 10%nat. split; reflexivity. }
  destruct (ReadEntryLine_bad_id to_int64 DeserializeFromJSON_model
              "notanumber {}" stats_zero Hne Hbad) as (Hstep & _).
  rewrite Hstep. split; reflexivity.
Defined.

(** ** The sentinel type (C8) *)

Lemma ReadEntryMap_threads_Forall
  (to_any : string -> option Z)
  (DeserializeFromJSON :
     string -> ParsingStats -> Entry -> bool * Entry * ParsingStats)
  (P : GeoObjectId * Entry -> Prop) :
  (forall line stats k e,
     fst (ReadEntryLine to_any DeserializeFromJSON line stats) = Loaded k e ->
     P (k, e)) ->
  forall lines sched parts stats,
    Forall (Forall P) parts ->
    Forall (Forall P)
      (fst (ReadEntryMap_threads to_any DeserializeFromJSON sched lines
              parts stats)).
Proof.
  intros HP lines. induction lines as [|line lines IH];
    intros sched parts stats Hparts.
  - destruct sched; exact Hparts.
  - destruct sched as [|t sched]; [exact Hparts|].
    cbn [ReadEntryMap_threads]. specialize (HP line stats).
    destruct (ReadEntryLine to_any DeserializeFromJSON line stats) as [r st'].
    apply IH. apply Forall_alter; [exact Hparts|].
    intros p _ Hp. rewrite emplace_result_Permutation.
    apply Forall_app. split; [|exact Hp].
    destruct r; simpl; constructor; auto.
Qed.

(** C8: a line whose payload the decoder accepts with the sentinel type
    ends the iteration at the [Type::Count] [continue]: no pair is
    emplaced and the stats stay as the decoder left them, so the line is
    counted neither as loaded nor as a bad id.  No entry of the sentinel
    type is ever in the output of [ReadEntries]. *)
Theorem ReadEntryLine_sentinel_dropped
  (entry_lt : Entry -> Entry -> bool)
  (to_any : string -> option Z)
  (DeserializeFromJSON :
     string -> ParsingStats -> Entry -> bool * Entry * ParsingStats)
  (line : string) (stats : ParsingStats) (i : nat) (v : Z)
  (entry' : Entry) (stats' : ParsingStats) :
  find " "%char line = Some i ->
  to_any (substr_to i line) = Some v ->
  DeserializeFromJSON (substr_from (i + 1) line) stats
    (set_osmId Entry_default (static_cast_uint64 v)) = (true, entry', stats') ->
  m_type entry' = Count ->
  ReadEntryLine to_any DeserializeFromJSON line stats = (TypeCount, stats') /\
  loaded_pair TypeCount = [] /\
  (forall m, emplace_result TypeCount m = m) /\
  (stats' = stats ->
   snd (ReadEntryLine to_any DeserializeFromJSON line stats) = stats) /\
  (forall t sched rest taskEntries,
     ReadEntryMap_threads to_any DeserializeFromJSON (t :: sched)
       (line :: rest) taskEntries stats
     = ReadEntryMap_threads to_any DeserializeFromJSON sched rest
         taskEntries stats') /\
  (forall readersCount sched lines stats0,
     Forall (fun e => m_type e <> Count)
       (fst (ReadEntries entry_lt to_any DeserializeFromJSON readersCount
               sched lines stats0))).
Proof.
  intros Hfind Hany Hdec Htype.
  assert (Hstep : ReadEntryLine to_any DeserializeFromJSON line stats
                  = (TypeCount, stats')).
  { rewrite (ReadEntryLine_decoded to_any DeserializeFromJSON line stats i v
               Hfind Hany), Hdec.
    cbn [negb]. rewrite Htype. reflexivity. }
  split; [exact Hstep|]. split; [reflexivity|]. split; [reflexivity|].
  split; [intros <-; rewrite Hstep; reflexivity|]. split.
  - intros t sched rest taskEntries. cbn [ReadEntryMap_threads].
    rewrite Hstep. cbn [emplace_result].
    rewrite list_alter_id by reflexivity. reflexivity.
  - intros readersCount sched lines stats0. unfold ReadEntries.
    set (parts0 := map (fun _ => []) (ReadEntries_tasks readersCount)).
    assert (H0 : Forall (Forall (fun pr => m_type (snd pr) <> Count)) parts0).
    { subst parts0. induction (ReadEntries_tasks readersCount); simpl;
        repeat constructor; assumption. }
    assert (Hparts :
      Forall (Forall (fun pr => m_type (snd pr) <> Count))
        (fst (match ReadEntries_tasks readersCount with
              | [] => (parts0, stats0)
              | _ :: _ =>
                  ReadEntryMap_threads to_any DeserializeFromJSON sched lines
                    parts0 stats0
              end))).
    { destruct (ReadEntries_tasks readersCount); [exact H0|].
      apply ReadEntryMap_threads_Forall; [|exact H0].
      intros ln st k e. apply ReadEntryLine_Loaded_type. }
    destruct (match ReadEntries_tasks readersCount with
              | [] => (parts0, stats0)
              | _ :: _ => _
              end) as [parts' st'].
    cbn [fst] in *. apply Forall_forall. intros x Hx.
    destruct (UnionEntries_elem_of entry_lt _ _ Hx) as (q & pr & Hq & Hpr & <-).
    rewrite Forall_forall in Hparts. specialize (Hparts q Hq).
    rewrite Forall_forall in Hparts. exact (Hparts pr Hpr).
Qed.

Lemma ReadEntryLine_sentinel_dropped_witness :
  ReadEntryLine to_int64 DeserializeFromJSON_model "7 {}" stats_zero
  = (TypeCount, stats_zero).
Proof.
  exact (proj1 (ReadEntryLine_sentinel_dropped Entry_lt to_int64
                  DeserializeFromJSON_model "7 {}" stats_zero 1 7
                  (set_osmId Entry_default 7) stats_zero
                  eq_refl eq_refl eq_refl eq_refl)).
Defined.

(** ** Runs with different worker counts and schedules (C5) *)



Lemma example_lines_distinct_ids :
  NoDup (map fst (fst (loaded_pairs to_int64 DeserializeFromJSON_model
                         example_lines stats_zero))).
Proof.
  change (NoDup [100; 50]).
  apply NoDup_cons. split; [|apply NoDup_singleton].
  intros H. apply list_elem_of_singleton in H. discriminate H.
Qed.


(** ** The example of the specification (C9) *)

Section Example.
Variable entry_lt : Entry -> Entry -> bool.
Variable to_any : string -> option Z.
Variable DeserializeFromJSON :
  string -> ParsingStats -> Entry -> bool * Entry * ParsingStats.

Local Abbreviation line_step := (ReadEntryLine to_any DeserializeFromJSON).
Local Abbreviation loaded := (loaded_pairs to_any DeserializeFromJSON).

(** A line with a decodable identifier and a payload of a real type is
    emplaced under the reinterpreted identifier and counted as loaded. *)
Lemma ReadEntryLine_real (line : string) (stats : ParsingStats)
  (i : nat) (v : Z) :
  find " "%char line = Some i ->
  to_any (substr_to i line) = Some v ->
  decodes_real DeserializeFromJSON (substr_from (i + 1) line) ->
  exists e,
    line_step line stats
    = (Loaded (static_cast_uint64 v) e, incr_numLoaded stats) /\
    m_osmId e = static_cast_uint64 v /\ m_type e <> Count.
Proof.
  intros Hfind Hany Hdec.
  destruct (Hdec stats (set_osmId Entry_default (static_cast_uint64 v)))
    as (e & He & Hid & Htype).
  exists e. split; [|split; [exact Hid | exact Htype]].
  rewrite (ReadEntryLine_decoded to_any DeserializeFromJSON line stats i v
             Hfind Hany), He.
  cbn [negb]. destruct (Type_eqb (m_type e) Count) eqn:E; [|reflexivity].
  apply Type_eqb_Count in E. contradiction.
Qed.

Lemma loaded_pairs_cons (line : string) (rest : list string)
  (stats stats' : ParsingStats) (r : LineResult) :
  line_step line stats = (r, stats') ->
  loaded (line :: rest) stats
  = (loaded_pair r ++ fst (loaded rest stats'), snd (loaded rest stats')).
Proof.
  intros Hstep. cbn [loaded_pairs]. rewrite Hstep.
  destruct (loaded rest stats'). reflexivity.
Qed.

Hypothesis to_any_100 : to_any "100"%string = Some 100.
Hypothesis to_any_50 : to_any "50"%string = Some 50.
Hypothesis decodes_A : decodes_real DeserializeFromJSON (payload_of_type "A").
Hypothesis decodes_B : decodes_real DeserializeFromJSON (payload_of_type "B").

(** What the four lines of the example leave: two pairs, two loaded, one
    bad id; the empty line leaves no trace. *)
Lemma example_lines_loaded :
  exists e50 e100,
    loaded example_lines stats_zero
    = ([(100, e100); (50, e50)], mkStats 2 1 0) /\
    m_osmId e50 = 50 /\ m_osmId e100 = 100.
Proof.
  destruct (ReadEntryLine_real ("100 " ++ payload_of_type "A") stats_zero
              3 100 eq_refl to_any_100 decodes_A) as (e100 & H1 & Hid1 & _).
  destruct (ReadEntryLine_real ("50 " ++ payload_of_type "B")
              (incr_numLoaded stats_zero)
              2 50 eq_refl to_any_50 decodes_B) as (e50 & H2 & Hid2 & _).
  exists e50, e100. split; [|split; assumption].
  unfold example_lines.
  rewrite (loaded_pairs_cons _ _ _ _ _ H1).
  rewrite (loaded_pairs_cons _ _ _ _ _ H2).
  reflexivity.
Qed.
End Example.



(** * Further properties of the merge *)

Section UnionMore.
Variable entry_lt : Entry -> Entry -> bool.

Local Abbreviation lex := (lexicographical_compare entry_lt).
Local Abbreviation body := (UnionEntries_body entry_lt).

Lemma UnionEntries_body_single (p : Partition) :
  body ([p], []) =
    match p with
    | [] => ([], [])
    | [(_, e)] => ([], [e])
    | (_, e) :: rest => ([rest], [e])
    end.
Proof. destruct p as [|[k e] [|x rest]]; reflexivity. Qed.


(** X2: the entries of one partition keep their relative order in the
    output: the values of every partition are a subsequence of it. *)
Theorem UnionEntries_keeps_partition_order (parts : list Partition)
  (p : Partition) :
  p ∈ parts -> values p `sublist_of` UnionEntries entry_lt parts.
Proof.
  revert p. induction parts as [|parts Hne IH] using (UnionEntries_ind entry_lt);
    intros p Hp.
  - apply elem_of_nil in Hp. contradiction.
  - rewrite (UnionEntries_unfold entry_lt parts Hne).
    destruct (UnionEntries_body_cases entry_lt parts [] Hne)
      as (l1 & p0 & l2 & E & _ & _ & Hbody).
    rewrite Hbody in IH |- *. rewrite E in Hp.
    assert (Hcases : p ∈ l1 ++ l2 \/ p = p0).
    { apply elem_of_app in Hp as [Hp|Hp]; [left; apply elem_of_app; auto|].
      apply elem_of_cons in Hp as [->|Hp]; [right; reflexivity|].
      left. apply elem_of_app. auto. }
    destruct p0 as [|[k e] [|x rest]]; cbn [fst snd app] in IH |- *.
    + destruct Hcases as [Hp'| ->]; [apply IH, Hp' | apply sublist_nil_l].
    + destruct Hcases as [Hp'| ->].
      * apply sublist_cons, IH, Hp'.
      * apply sublist_skip, sublist_nil_l.
    + destruct Hcases as [Hp'| ->].
      * apply sublist_cons, IH.
        apply elem_of_app in Hp' as [Hp'|Hp']; apply elem_of_app;
          [left; exact Hp' | right; right; exact Hp'].
      * cbn [values map snd]. apply sublist_skip.
        apply (IH (x :: rest)). apply elem_of_app. right. left.
Qed.

Lemma min_element_picks_empty (parts : list Partition) :
  [] ∈ parts ->
  parts !! min_element lex parts = Some [].
Proof.
  intros Hin.
  assert (Hne : parts <> []).
  { intros ->. apply elem_of_nil in Hin. contradiction. }
  destruct (min_element_le_head entry_lt parts Hne) as (p & Hp & Hmin).
  specialize (Hmin [] Hin). destruct p as [|[k e] p]; [exact Hp|].
  simpl in Hmin. contradiction.
Qed.

Lemma nonempty_parts_id (parts : list Partition) :
  [] ∉ parts -> nonempty_parts parts = parts.
Proof.
  unfold nonempty_parts. induction parts as [|p parts IH]; intros Hnot.
  - reflexivity.
  - destruct p as [|x p]; [exfalso; apply Hnot; left|].
    cbn [List.filter]. f_equal. apply IH.
    intros Hin. apply Hnot. right. exact Hin.
Qed.

Lemma nonempty_parts_app (l1 l2 : list Partition) :
  nonempty_parts (l1 ++ l2) = nonempty_parts l1 ++ nonempty_parts l2.
Proof. apply List.filter_app. Qed.

Lemma empty_partition_in_or_not (parts : list Partition) :
  [] ∈ parts \/ [] ∉ parts.
Proof.
  induction parts as [|p parts [IH|IH]].
  - right. apply not_elem_of_nil.
  - left. right. exact IH.
  - destruct p as [|x p]; [left; left|].
    right. intros Hin. apply elem_of_cons in Hin as [Hin|Hin];
      [discriminate | contradiction].
Qed.

Lemma UnionEntries_nonempty_parts (parts : list Partition) :
  UnionEntries entry_lt parts = UnionEntries entry_lt (nonempty_parts parts).
Proof.
  induction parts as [|parts Hne IH] using (UnionEntries_ind entry_lt).
  - reflexivity.
  - destruct (empty_partition_in_or_not parts) as [Hin|Hnot].
    + pose proof (min_element_picks_empty parts Hin) as Hp.
      destruct (UnionEntries_body_cases entry_lt parts [] Hne)
        as (l1 & p0 & l2 & E & Hlen & _ & Hbody).
      assert (p0 = []) as ->.
      { rewrite <- Hlen in Hp. rewrite E in Hp.
        rewrite list_lookup_middle in Hp by reflexivity. congruence. }
      rewrite (UnionEntries_unfold entry_lt parts Hne).
      rewrite Hbody in IH |- *. cbn [fst snd app] in IH |- *.
      rewrite IH, E, !nonempty_parts_app. reflexivity.
    + rewrite nonempty_parts_id by exact Hnot. reflexivity.
Qed.

Lemma UnionEntries_single_partition_values (p : Partition) :
  UnionEntries entry_lt [p] = values p.
Proof.
  induction p as [|[k e] p IH].
  - reflexivity.
  - rewrite UnionEntries_unfold by discriminate.
    rewrite UnionEntries_body_single.
    destruct p as [|x rest]; cbn [fst snd].
    + reflexivity.
    + rewrite IH. reflexivity.
Qed.

Lemma UnionEntries_among_empty (p : Partition) (n m : nat) :
  UnionEntries entry_lt (replicate n [] ++ p :: replicate m []) = values p.
Proof.
  rewrite UnionEntries_nonempty_parts.
  assert (Hrep : forall j, nonempty_parts (replicate j []) = []).
  { induction j; [reflexivity | exact IHj]. }
  rewrite nonempty_parts_app, Hrep. cbn [app].
  destruct p as [|x p]; unfold nonempty_parts; cbn [List.filter].
  - fold (nonempty_parts (replicate m [])). rewrite Hrep. reflexivity.
  - fold (nonempty_parts (replicate m [])). rewrite Hrep.
    apply UnionEntries_single_partition_values.
Qed.

(** X1: merging a single partition returns its entries in the order of
    the multimap, and so does merging it together with any number of
    empty partitions placed before and after it. *)
Theorem UnionEntries_one_nonempty_partition (p : Partition) (n m : nat) :
  UnionEntries entry_lt [p] = values p /\
  UnionEntries entry_lt (replicate n [] ++ p :: replicate m []) = values p.
Proof.
  split; [apply UnionEntries_single_partition_values|].
  apply UnionEntries_among_empty.
Qed.

(** X3: partitions that hold no entry (workers that obtained no loadable
    line) do not change the output, wherever they stand in the vector. *)
Theorem UnionEntries_ignores_empty_partitions (parts : list Partition) :
  UnionEntries entry_lt parts = UnionEntries entry_lt (nonempty_parts parts) /\
  (forall l1 l2,
     UnionEntries entry_lt (l1 ++ [] :: l2) = UnionEntries entry_lt (l1 ++ l2)).
Proof.
  split; [apply UnionEntries_nonempty_parts|].
  intros l1 l2.
  rewrite (UnionEntries_nonempty_parts (l1 ++ [] :: l2)).
  rewrite (UnionEntries_nonempty_parts (l1 ++ l2)).
  rewrite !nonempty_parts_app. reflexivity.
Qed.

(** X4: when no identifier occurs twice among all partitions, the output
    does not depend on the order of the partitions in the vector. *)
Theorem UnionEntries_distinct_keys_any_order (parts parts' : list Partition) :
  Forall multimap_ok parts -> Forall keyed parts ->
  NoDup (concat (map keys parts)) ->
  parts ≡ₚ parts' ->
  UnionEntries entry_lt parts = UnionEntries entry_lt parts'.
Proof.
  intros Hok Hkeyed Hnd Hperm.
  assert (Hok' : Forall multimap_ok parts') by (rewrite <- Hperm; exact Hok).
  assert (Hkeyed' : Forall keyed parts') by (rewrite <- Hperm; exact Hkeyed).
  assert (Hvals : concat (map values parts) ≡ₚ concat (map values parts')).
  { clear -Hperm. induction Hperm; cbn [map concat].
    - reflexivity.
    - rewrite IHHperm. reflexivity.
    - rewrite !app_assoc. apply Permutation_app_tail, Permutation_app_comm.
    - etransitivity; eassumption. }
  assert (Hids : map m_osmId (concat (map values parts))
                 = concat (map keys parts)).
  { clear -Hkeyed. induction Hkeyed as [|p parts Hp _ IH]; [reflexivity|].
    cbn [map concat]. rewrite map_app, IH. f_equal.
    unfold keyed in Hp. unfold values, keys. clear -Hp.
    induction Hp as [|pr p Hpr _ IH]; [reflexivity|].
    cbn [map]. rewrite Hpr, IH. reflexivity. }
  apply (StronglySorted_unique_strong Entry_le).
  - intros x1 x2 Hx1 Hx2 Hle1 Hle2. unfold Entry_le in *.
    rewrite UnionEntries_Permutation_values in Hx1, Hx2.
    rewrite <- Hvals in Hx2.
    apply (NoDup_map_inj_on m_osmId (concat (map values parts)));
      [rewrite Hids; exact Hnd | exact Hx1 | exact Hx2 | lia].
  - apply UnionEntries_StronglySorted; assumption.
  - apply UnionEntries_StronglySorted; assumption.
  - rewrite !UnionEntries_Permutation_values. exact Hvals.
Qed.
End UnionMore.

Lemma UnionEntries_keeps_partition_order_witness :
  [(5, tie_a); (7, tie_b)] ∈ tie_parts /\
  [tie_a; tie_b] `sublist_of` UnionEntries Entry_lt tie_parts.
Proof.
  assert (Hin : [(5, tie_a); (7, tie_b)] ∈ tie_parts) by left.
  split; [exact Hin|].
  exact (UnionEntries_keeps_partition_order Entry_lt tie_parts
           [(5, tie_a); (7, tie_b)] Hin).
Defined.

Lemma UnionEntries_distinct_keys_any_order_witness :
  UnionEntries Entry_lt [[(5, tie_a); (7, tie_b)]; [(6, tie_d)]]
  = UnionEntries Entry_lt [[(6, tie_d)]; [(5, tie_a); (7, tie_b)]].
Proof.
  apply UnionEntries_distinct_keys_any_order.
  - repeat constructor; simpl; lia.
  - repeat constructor.
  - cbn. repeat (apply NoDup_cons; split);
      [ | | | apply NoDup_nil; exact I ];
      rewrite ?elem_of_cons; rewrite ?elem_of_nil; intros H;
      repeat destruct H as [H|H]; try discriminate H; exact H.
  - apply perm_swap.
Defined.

(** * Further properties of the reader *)

(** ** The multimap of one worker *)

Lemma equal_range_above (k k1 : GeoObjectId) (e1 : Entry) (m : Partition) :
  multimap_ok ((k1, e1) :: m) -> k < k1 -> equal_range k ((k1, e1) :: m) = [].
Proof.
  intros Hok Hlt. unfold equal_range.
  assert (Hall : forall pr, pr ∈ (k1, e1) :: m -> (fst pr =? k) = false).
  { intros pr Hpr. pose proof (multimap_ok_head_le k1 e1 m Hok pr Hpr). lia. }
  clear Hok. revert Hall. generalize ((k1, e1) :: m). intros l.
  induction l as [|pr l IH]; intros Hall; [reflexivity|].
  cbn [List.filter]. rewrite (Hall pr) by left.
  apply IH. intros pr' Hpr'. apply Hall. right. exact Hpr'.
Qed.

Lemma equal_range_cons (k : GeoObjectId) (pr : GeoObjectId * Entry)
  (m : Partition) :
  equal_range k (pr :: m)
  = (if fst pr =? k then [pr] else []) ++ equal_range k m.
Proof. unfold equal_range. cbn [List.filter]. destruct (fst pr =? k); reflexivity. Qed.

(** [emplace] puts the new pair behind the pairs already stored under its
    key, and leaves the pairs under any other key as they are. *)
Lemma emplace_equal_range (k k' : GeoObjectId) (e : Entry) (m : Partition) :
  multimap_ok m ->
  equal_range k' (emplace k e m) =
    equal_range k' m ++ (if k =? k' then [(k, e)] else []).
Proof.
  induction m as [|[k1 e1] m IH]; intros Hok.
  - cbn. destruct (k =? k'); reflexivity.
  - cbn [emplace]. destruct (k <? k1) eqn:Elt.
    + rewrite (equal_range_cons k' (k, e)). cbn [fst].
      destruct (k =? k') eqn:Ek.
      * assert (k' = k) as -> by lia.
        rewrite (equal_range_above k k1 e1 m Hok) by lia. reflexivity.
      * rewrite app_nil_r. reflexivity.
    + rewrite !(equal_range_cons k' (k1, e1)).
      rewrite (IH (multimap_ok_tail _ _ Hok)), app_assoc. reflexivity.
Qed.

Section ReaderMore.
Variable entry_lt : Entry -> Entry -> bool.
Variable to_any : string -> option Z.
Variable DeserializeFromJSON :
  string -> ParsingStats -> Entry -> bool * Entry * ParsingStats.

Local Abbreviation line_step := (ReadEntryLine to_any DeserializeFromJSON).
Local Abbreviation loaded := (loaded_pairs to_any DeserializeFromJSON).
Local Abbreviation map_loop :=
  (ReadEntryMap_loop to_any DeserializeFromJSON).
Local Abbreviation threads :=
  (ReadEntryMap_threads to_any DeserializeFromJSON).
Local Abbreviation read :=
  (ReadEntries entry_lt to_any DeserializeFromJSON).

Lemma equal_range_app (k : GeoObjectId) (l1 l2 : Partition) :
  equal_range k (l1 ++ l2) = equal_range k l1 ++ equal_range k l2.
Proof. apply List.filter_app. Qed.

Lemma emplace_result_equal_range (r : LineResult) (k : GeoObjectId)
  (m : Partition) :
  multimap_ok m ->
  equal_range k (emplace_result r m)
  = equal_range k m ++ equal_range k (loaded_pair r).
Proof.
  intros Hok. destruct r; cbn [emplace_result loaded_pair];
    try (cbn; rewrite app_nil_r; reflexivity).
  rewrite emplace_equal_range by exact Hok.
  unfold equal_range at 3. cbn [List.filter fst]. reflexivity.
Qed.

(** The loop of one worker, started on a well-formed map. *)
Lemma ReadEntryMap_loop_spec (lines : list string) :
  forall (m : Partition) (stats : ParsingStats),
    multimap_ok m ->
    multimap_ok (fst (map_loop lines m stats)) /\
    fst (map_loop lines m stats) ≡ₚ m ++ fst (loaded lines stats) /\
    (forall k, equal_range k (fst (map_loop lines m stats))
               = equal_range k m ++ equal_range k (fst (loaded lines stats))) /\
    snd (map_loop lines m stats) = snd (loaded lines stats).
Proof.
  induction lines as [|line lines IH]; intros m stats Hok.
  - cbn. rewrite app_nil_r. repeat split; auto.
    intros k. rewrite app_nil_r. reflexivity.
  - cbn [ReadEntryMap_loop loaded_pairs].
    destruct (line_step line stats) as [r st'].
    pose proof (emplace_result_multimap_ok r m Hok) as Hok'.
    destruct (IH (emplace_result r m) st' Hok') as (H1 & H2 & H3 & H4).
    destruct (loaded lines st') as [l st''].
    cbn [fst snd] in *. split; [exact H1|]. split; [|split; [|exact H4]].
    + rewrite H2, emplace_result_Permutation.
      rewrite !app_assoc. apply Permutation_app_tail, Permutation_app_comm.
    + intros k. rewrite H3, emplace_result_equal_range by exact Hok.
      rewrite equal_range_app, app_assoc. reflexivity.
Qed.

(** X5: the map that one worker fills from the lines is ordered by
    identifier and holds exactly the emplaced pairs; the pairs of one
    identifier stay in file order. *)
Theorem ReadEntryMap_stable (lines : list string) (stats : ParsingStats) :
  multimap_ok (fst (ReadEntryMap to_any DeserializeFromJSON lines stats)) /\
  fst (ReadEntryMap to_any DeserializeFromJSON lines stats)
    ≡ₚ fst (loaded lines stats) /\
  (forall k,
     equal_range k (fst (ReadEntryMap to_any DeserializeFromJSON lines stats))
     = equal_range k (fst (loaded lines stats))) /\
  snd (ReadEntryMap to_any DeserializeFromJSON lines stats)
  = snd (loaded lines stats).
Proof.
  unfold ReadEntryMap.
  destruct (ReadEntryMap_loop_spec lines [] stats) as (H1 & H2 & H3 & H4);
    [constructor|].
  repeat split; auto.
Qed.

End ReaderMore.

(** ** Splitting a line at the first space *)

Lemma substring_all (s : string) : substring 0 (String.length s) s = s.
Proof. induction s as [|c s IH]; simpl; [reflexivity | rewrite IH; reflexivity]. Qed.

Lemma find_Some_split (line : string) :
  forall i, find " "%char line = Some i ->
    line = (substr_to i line ++ " " ++ substr_from (i + 1) line)%string /\
    find " "%char (substr_to i line) = None /\
    String.length (substr_to i line) = i.
Proof.
  unfold substr_to, substr_from.
  induction line as [|c line IH]; intros i Hfind; [discriminate|].
  cbn [find] in Hfind. destruct (Ascii.eqb c " "%char) eqn:Ec.
  - injection Hfind as <-. apply Ascii.eqb_eq in Ec. subst c.
    cbn. rewrite Nat.sub_0_r, substring_all. auto.
  - destruct (find " "%char line) as [j|] eqn:Ej; [|discriminate].
    injection Hfind as <-. destruct (IH j eq_refl) as (H1 & H2 & H3).
    cbn [substring String.length Nat.add Nat.sub].
    cbn [find]. rewrite Ec, H2. cbn [option_map String.length].
    rewrite H3. repeat split. cbn [String.append]. f_equal. exact H1.
Qed.

(** X7: a line with a space is cut at its first space: the token before
    it holds no space, the payload is all that follows it (further spaces
    included), and token, space and payload put together give the line
    back. *)
Theorem ReadEntryLine_split_at_first_space
  (to_any : string -> option Z)
  (DeserializeFromJSON :
     string -> ParsingStats -> Entry -> bool * Entry * ParsingStats)
  (line : string) (stats : ParsingStats) (i : nat) (v : Z) :
  find " "%char line = Some i ->
  to_any (substr_to i line) = Some v ->
  line = (substr_to i line ++ " " ++ substr_from (i + 1) line)%string /\
  find " "%char (substr_to i line) = None /\
  String.length (substr_to i line) = i /\
  ReadEntryLine to_any DeserializeFromJSON line stats =
    (let '(ok, entry, stats') :=
       DeserializeFromJSON (substr_from (i + 1) line) stats
         (set_osmId Entry_default (static_cast_uint64 v)) in
     if negb ok then (DeserializeFailed, stats')
     else if Type_eqb (m_type entry) Count then (TypeCount, stats')
     else (Loaded (static_cast_uint64 v) entry, incr_numLoaded stats')).
Proof.
  intros Hfind Hany.
  destruct (find_Some_split line i Hfind) as (H1 & H2 & H3).
  repeat split; try assumption.
  apply ReadEntryLine_decoded; assumption.
Qed.

Lemma ReadEntryLine_split_at_first_space_witness :
  ("12 a b c" = substr_to 2 "12 a b c" ++ " " ++ substr_from 3 "12 a b c")%string
  /\ substr_from 3 "12 a b c" = "a b c"%string.
Proof.
  destruct (ReadEntryLine_split_at_first_space to_int64
              DeserializeFromJSON_model "12 a b c" stats_zero 2 12
              eq_refl eq_refl) as (H & _).
  split; [exact H | reflexivity].
Defined.

(** ** Empty lines, counters and identifiers *)

Section ReaderCounters.
Variable entry_lt : Entry -> Entry -> bool.
Variable to_any : string -> option Z.
Variable DeserializeFromJSON :
  string -> ParsingStats -> Entry -> bool * Entry * ParsingStats.

Local Abbreviation line_step := (ReadEntryLine to_any DeserializeFromJSON).
Local Abbreviation loaded := (loaded_pairs to_any DeserializeFromJSON).
Local Abbreviation map_loop :=
  (ReadEntryMap_loop to_any DeserializeFromJSON).
Local Abbreviation threads :=
  (ReadEntryMap_threads to_any DeserializeFromJSON).
Local Abbreviation read :=
  (ReadEntries entry_lt to_any DeserializeFromJSON).

Lemma ReadEntryMap_loop_nonblank (lines : list string) :
  forall m stats, map_loop (nonblank lines) m stats = map_loop lines m stats.
Proof.
  induction lines as [|line lines IH]; intros m stats; [reflexivity|].
  unfold nonblank in *. cbn [List.filter].
  destruct line as [|c line]; cbn [string_empty negb].
  - cbn [ReadEntryMap_loop]. unfold ReadEntryLine. cbn [string_empty].
    cbn [emplace_result]. apply IH.
  - cbn [ReadEntryMap_loop]. destruct (line_step (String c line) stats).
    apply IH.
Qed.

(** X8: empty lines are transparent: a worker fills the same map and
    leaves the same stats whether the empty lines are in the stream or
    taken out of it. *)
Theorem ReadEntryMap_skips_empty_lines (lines : list string)
  (stats : ParsingStats) :
  ReadEntryMap to_any DeserializeFromJSON (nonblank lines) stats
  = ReadEntryMap to_any DeserializeFromJSON lines stats /\
  (forall l1 l2,
     ReadEntryMap to_any DeserializeFromJSON (l1 ++ EmptyString :: l2) stats
     = ReadEntryMap to_any DeserializeFromJSON (l1 ++ l2) stats).
Proof.
  unfold ReadEntryMap. split; [apply ReadEntryMap_loop_nonblank|].
  intros l1 l2.
  rewrite <- (ReadEntryMap_loop_nonblank (l1 ++ EmptyString :: l2)).
  rewrite <- (ReadEntryMap_loop_nonblank (l1 ++ l2)).
  unfold nonblank. rewrite !List.filter_app. reflexivity.
Qed.

(** What one line does to the two counters of [ReadEntryMap]. *)
Lemma ReadEntryLine_counters (line : string) (stats : ParsingStats) :
  keeps_reader_counters DeserializeFromJSON ->
  m_badOsmIds (snd (line_step line stats))
  = (if is_bad_id_line to_any line then incr64 (m_badOsmIds stats)
     else m_badOsmIds stats) /\
  m_numLoaded (snd (line_step line stats))
  = (match loaded_pair (fst (line_step line stats)) with
     | [] => m_numLoaded stats
     | _ :: _ => incr64 (m_numLoaded stats)
     end).
Proof.
  intros Hkeeps. unfold ReadEntryLine, is_bad_id_line.
  destruct (string_empty line); cbn [negb andb]; [split; reflexivity|].
  destruct (find " "%char line) as [i|]; [|split; reflexivity].
  destruct (to_any (substr_to i line)) as [v|]; [|split; reflexivity].
  destruct (Hkeeps (substr_from (i + 1) line) stats
              (set_osmId Entry_default (static_cast_uint64 v))) as [Hn Hb].
  destruct (DeserializeFromJSON _ _ _) as [[ok e] st'].
  cbn [snd] in Hn, Hb.
  destruct ok; cbn [negb]; [|cbn; auto].
  destruct (Type_eqb (m_type e) Count); cbn; rewrite ?Hn, ?Hb; auto.
Qed.

Lemma iter_incr64 (n : nat) (c : Z) :
  is_uint64 c ->
  Nat.iter n incr64 c = (c + Z.of_nat n) mod uint64_modulus.
Proof.
  intros Hc. induction n as [|n IH].
  - change (Nat.iter 0 incr64 c) with c.
    rewrite Z.add_0_r. symmetry. apply Z.mod_small. exact Hc.
  - rewrite Nat.iter_succ, IH. unfold incr64.
    rewrite Zplus_mod_idemp_l. f_equal. lia.
Qed.

Lemma loaded_pairs_counters (lines : list string) :
  forall stats,
    keeps_reader_counters DeserializeFromJSON ->
    m_badOsmIds (snd (loaded lines stats))
    = Nat.iter (length (List.filter (is_bad_id_line to_any) lines)) incr64
        (m_badOsmIds stats) /\
    m_numLoaded (snd (loaded lines stats))
    = Nat.iter (length (fst (loaded lines stats))) incr64 (m_numLoaded stats).
Proof.
  induction lines as [|line lines IH]; intros stats Hkeeps.
  - split; reflexivity.
  - cbn [loaded_pairs List.filter].
    destruct (ReadEntryLine_counters line stats Hkeeps) as [Hb Hn].
    destruct (line_step line stats) as [r st'].
    destruct (IH st' Hkeeps) as [IHb IHn].
    destruct (loaded lines st') as [l st''].
    cbn [fst snd] in *. split.
    + rewrite IHb, Hb.
      destruct (is_bad_id_line to_any line); [|reflexivity].
      cbn [length]. rewrite Nat.iter_succ_r. reflexivity.
    + rewrite IHn, Hn. destruct r; cbn [loaded_pair app]; try reflexivity.
      cbn [length]. rewrite Nat.iter_succ_r. reflexivity.
Qed.

(** A line is emplaced or counted as a bad id, never both. *)
Lemma loaded_pairs_bound (lines : list string) :
  forall stats,
    (length (fst (loaded lines stats))
     + length (List.filter (is_bad_id_line to_any) lines)
     <= length lines)%nat.
Proof.
  induction lines as [|line lines IH]; intros stats.
  - cbn. lia.
  - cbn [loaded_pairs List.filter].
    assert (Hone : (length (loaded_pair (fst (line_step line stats)))
                    + (if is_bad_id_line to_any line then 1 else 0) <= 1)%nat).
    { unfold ReadEntryLine, is_bad_id_line.
      destruct (string_empty line); cbn [negb andb]; [cbn; lia|].
      destruct (find " "%char line) as [i|]; [|cbn; lia].
      destruct (to_any (substr_to i line)) as [v|]; [|cbn; lia].
      destruct (DeserializeFromJSON _ _ _) as [[ok e] st'].
      destruct ok; cbn [negb]; [|cbn; lia].
      destruct (Type_eqb (m_type e) Count); cbn; lia. }
    destruct (line_step line stats) as [r st'].
    specialize (IH st'). destruct (loaded lines st') as [l st''].
    cbn [fst snd] in *. rewrite length_app.
    destruct (is_bad_id_line to_any line); cbn [length]; lia.
Qed.

Lemma ReadEntryLine_Loaded_uint64 (line : string) (stats : ParsingStats)
  (k : GeoObjectId) (e : Entry) :
  keeps_osmId DeserializeFromJSON ->
  fst (line_step line stats) = Loaded k e ->
  is_uint64 (fst (k, e)) /\ m_osmId (snd (k, e)) = fst (k, e).
Proof.
  intros Hkeeps Hstep.
  split; [|exact (ReadEntryLine_Loaded_keyed to_any DeserializeFromJSON
                    line stats k e Hkeeps Hstep)].
  revert Hstep. unfold ReadEntryLine.
  destruct (string_empty line); [discriminate|].
  destruct (find " "%char line) as [i|]; [|discriminate].
  destruct (to_any (substr_to i line)) as [v|]; [|discriminate].
  destruct (DeserializeFromJSON _ _ _) as [[ok e'] st'].
  destruct ok; cbn [negb]; [|discriminate].
  destruct (Type_eqb (m_type e') Count); [discriminate|].
  cbn [fst]. intros [= <- _]. apply static_cast_uint64_range.
Qed.

(** X10: when the payload decoder leaves the identifier alone, every
    entry returned by [ReadEntries] carries a 64-bit unsigned identifier,
    whatever the reader count and the schedule. *)
Theorem ReadEntries_identifiers_uint64 (readersCount : nat)
  (sched : list nat) (lines : list string) (stats : ParsingStats) :
  keeps_osmId DeserializeFromJSON ->
  Forall (fun e => is_uint64 (m_osmId e))
    (fst (read readersCount sched lines stats)).
Proof.
  intros Hkeeps. unfold ReadEntries.
  set (parts0 := map (fun _ => []) (ReadEntries_tasks readersCount)).
  set (P := fun pr : GeoObjectId * Entry =>
              is_uint64 (fst pr) /\ m_osmId (snd pr) = fst pr).
  assert (H0 : Forall (Forall P) parts0).
  { subst parts0. induction (ReadEntries_tasks readersCount); simpl;
      repeat constructor; assumption. }
  assert (Hparts :
    Forall (Forall P)
      (fst (match ReadEntries_tasks readersCount with
            | [] => (parts0, stats)
            | _ :: _ => threads sched lines parts0 stats
            end))).
  { destruct (ReadEntries_tasks readersCount); [exact H0|].
    apply ReadEntryMap_threads_Forall; [|exact H0].
    intros ln st k e. apply ReadEntryLine_Loaded_uint64, Hkeeps. }
  destruct (match ReadEntries_tasks readersCount with
            | [] => (parts0, stats)
            | _ :: _ => _
            end) as [parts' st'].
  cbn [fst] in *. apply Forall_forall. intros x Hx.
  destruct (UnionEntries_elem_of entry_lt _ _ Hx) as (q & pr & Hq & Hpr & <-).
  rewrite Forall_forall in Hparts. specialize (Hparts q Hq).
  rewrite Forall_forall in Hparts. destruct (Hparts pr Hpr) as [Hu Hid].
  rewrite Hid. exact Hu.
Qed.
End ReaderCounters.

Lemma DeserializeFromJSON_model_keeps_reader_counters :
  keeps_reader_counters DeserializeFromJSON_model.
Proof.
  intros payload stats entry. unfold DeserializeFromJSON_model.
  destruct payload as [|c rest]; [split; reflexivity|].
  destruct (Ascii.eqb c "{"%char); [|split; reflexivity].
  destruct (String.eqb rest "}"); split; reflexivity.
Qed.

Lemma ReadEntries_identifiers_uint64_witness :
  Forall (fun e => is_uint64 (m_osmId e))
    (fst (ReadEntries Entry_lt to_int64 DeserializeFromJSON_model 1 [0]%nat
            ["-1 {x}"%string] stats_zero)).
Proof.
  exact (ReadEntries_identifiers_uint64 Entry_lt to_int64
           DeserializeFromJSON_model 1 [0]%nat ["-1 {x}"%string] stats_zero
           DeserializeFromJSON_model_keeps_osmId).
Defined.

(** ** One worker obtains every line *)

Section OneBusyReader.
Variable entry_lt : Entry -> Entry -> bool.
Variable to_any : string -> option Z.
Variable DeserializeFromJSON :
  string -> ParsingStats -> Entry -> bool * Entry * ParsingStats.

Local Abbreviation line_step := (ReadEntryLine to_any DeserializeFromJSON).
Local Abbreviation map_loop :=
  (ReadEntryMap_loop to_any DeserializeFromJSON).
Local Abbreviation threads :=
  (ReadEntryMap_threads to_any DeserializeFromJSON).
Local Abbreviation read :=
  (ReadEntries entry_lt to_any DeserializeFromJSON).

Lemma alter_alter_same {A : Type} (f g : A -> A) (l : list A) :
  forall t, alter f t (alter g t l) = alter (fun x => f (g x)) t l.
Proof.
  induction l as [|x l IH]; intros [|t]; cbn; try reflexivity.
  rewrite IH. reflexivity.
Qed.

Lemma ReadEntryMap_loop_stats (lines : list string) :
  forall m1 m2 stats,
    snd (map_loop lines m1 stats) = snd (map_loop lines m2 stats).
Proof.
  induction lines as [|line lines IH]; intros m1 m2 stats; [reflexivity|].
  cbn [ReadEntryMap_loop]. destruct (line_step line stats) as [r st'].
  apply IH.
Qed.

Lemma ReadEntryMap_threads_one_busy (lines : list string) :
  forall (t : nat) (parts : list Partition) (stats : ParsingStats),
    threads (replicate (length lines) t) lines parts stats
    = (alter (fun m => fst (map_loop lines m stats)) t parts,
       snd (map_loop lines [] stats)).
Proof.
  induction lines as [|line lines IH]; intros t parts stats.
  - cbn. rewrite list_alter_id by reflexivity. reflexivity.
  - cbn [length replicate ReadEntryMap_threads ReadEntryMap_loop].
    destruct (line_step line stats) as [r st'].
    rewrite IH, alter_alter_same.
    rewrite (ReadEntryMap_loop_stats lines [] (emplace_result r []) st').
    reflexivity.
Qed.

Lemma alter_replicate_nil (F : Partition -> Partition) (k : nat) :
  forall t, (t < k)%nat ->
    alter F t (replicate k [])
    = replicate t [] ++ F [] :: replicate (k - S t) [].
Proof.
  induction k as [|k IH]; intros t Ht; [lia|].
  destruct t as [|t]; cbn [replicate alter list_alter app Nat.sub].
  - rewrite Nat.sub_0_r. reflexivity.
  - rewrite IH by lia. reflexivity.
Qed.

Lemma map_const_replicate {A B : Type} (b : B) (l : list A) :
  map (fun _ => b) l = replicate (length l) b.
Proof. induction l as [|x l IH]; cbn; [reflexivity | rewrite IH; reflexivity]. Qed.

(** X6: when one of the workers happens to obtain every line, the
    result is the one of a single reader, whatever the reader count and
    whichever worker it is: the workers left idle change nothing. *)
Theorem ReadEntries_one_busy_reader (readersCount t : nat)
  (lines : list string) (stats : ParsingStats) :
  (t < Nat.min readersCount 8)%nat ->
  valid_schedule (Nat.min readersCount 8) lines (replicate (length lines) t) /\
  read readersCount (replicate (length lines) t) lines stats
  = (values (fst (ReadEntryMap to_any DeserializeFromJSON lines stats)),
     snd (ReadEntryMap to_any DeserializeFromJSON lines stats)).
Proof.
  intros Ht. split.
  { split; [apply length_replicate|]. apply Forall_replicate. exact Ht. }
  unfold ReadEntries, ReadEntryMap.
  pose proof (ReadEntries_tasks_length readersCount) as Hlen.
  rewrite map_const_replicate, Hlen.
  destruct (ReadEntries_tasks readersCount) as [|t0 tasks]; [simpl in Hlen; lia|].
  rewrite ReadEntryMap_threads_one_busy.
  rewrite alter_replicate_nil by exact Ht.
  rewrite UnionEntries_among_empty. reflexivity.
Qed.
End OneBusyReader.

Lemma ReadEntries_one_busy_reader_witness :
  ReadEntries Entry_lt to_int64 DeserializeFromJSON_model 3
    [2; 2; 2; 2]%nat example_lines stats_zero
  = (values (fst (ReadEntryMap to_int64 DeserializeFromJSON_model
                    example_lines stats_zero)),
     snd (ReadEntryMap to_int64 DeserializeFromJSON_model example_lines
            stats_zero)).
Proof.
  refine (proj2 (ReadEntries_one_busy_reader Entry_lt to_int64
                   DeserializeFromJSON_model 3 2 example_lines stats_zero _)).
  simpl. lia.
Defined.

(** * Properties of the tile utilities *)

Lemma int_close_spec (a b : Z) :
  int_close a b =
    if Z.abs (a - b) <=? INT_MAX then Some (Z.abs (a - b) <? 2) else None.
Proof.
  unfold int_close, int_sub, int_abs, INT_MIN, INT_MAX.
  destruct (- 2 ^ 31 <=? a - b) eqn:E1; destruct (a - b <=? 2 ^ 31 - 1) eqn:E2;
    cbn [andb];
    try destruct (a - b =? - 2 ^ 31) eqn:E3;
    destruct (Z.abs (a - b) <=? 2 ^ 31 - 1) eqn:E4;
    try reflexivity; lia.
Qed.

(** X11: [IsNeighbours] answers true exactly for two tiles at Chebyshev
    distance 1 (one of the eight tiles around a tile), never for a tile
    and itself; it does not depend on the order of its arguments; and it
    has a defined result whenever the coordinates differ by less than
    2^31. *)
Theorem IsNeighbours_chebyshev (tileKey1 tileKey2 : TileKey) :
  (IsNeighbours tileKey1 tileKey2 = Some true <->
   Z.max (Z.abs (m_x tileKey1 - m_x tileKey2))
         (Z.abs (m_y tileKey1 - m_y tileKey2)) = 1) /\
  IsNeighbours tileKey1 tileKey1 = Some false /\
  IsNeighbours tileKey1 tileKey2 = IsNeighbours tileKey2 tileKey1 /\
  (Z.abs (m_x tileKey1 - m_x tileKey2) <= INT_MAX ->
   Z.abs (m_y tileKey1 - m_y tileKey2) <= INT_MAX ->
   IsNeighbours tileKey1 tileKey2 <> None).
Proof.
  destruct tileKey1 as [x1 y1], tileKey2 as [x2 y2].
  unfold IsNeighbours. cbn [m_x m_y]. rewrite !int_close_spec.
  unfold INT_MAX.
  replace (x2 - x1) with (- (x1 - x2)) by lia.
  replace (y2 - y1) with (- (y1 - y2)) by lia.
  rewrite !Z.abs_opp, !Z.sub_diag. cbn [Z.abs].
  rewrite (Z.eqb_sym x2 x1), (Z.eqb_sym y2 y1), !Z.eqb_refl. cbn [andb negb].
  split; [|split; [reflexivity|split; [reflexivity|]]].
  - destruct (x1 =? x2) eqn:Ex; destruct (y1 =? y2) eqn:Ey; cbn [andb negb];
      destruct (Z.abs (x1 - x2) <=? 2 ^ 31 - 1) eqn:E1;
      try destruct (Z.abs (x1 - x2) <? 2) eqn:E2;
      try destruct (Z.abs (y1 - y2) <=? 2 ^ 31 - 1) eqn:E3;
      try destruct (Z.abs (y1 - y2) <? 2) eqn:E4;
      split; intros H; try discriminate H; try reflexivity; lia.
  - intros Hx Hy.
    destruct (negb ((x1 =? x2) && (y1 =? y2))); [|discriminate].
    destruct (Z.abs (x1 - x2) <=? 2 ^ 31 - 1) eqn:E1; [|lia].
    destruct (Z.abs (x1 - x2) <? 2); [|discriminate].
    destruct (Z.abs (y1 - y2) <=? 2 ^ 31 - 1) eqn:E3; [discriminate|lia].
Qed.

(** X12: [ClipTileZoomByMaxDataZoom] is the minimum of the zoom and the
    upper scale: it never exceeds either, leaves a zoom within the scale
    as it is, clipping twice is clipping once, and a larger zoom never
    clips to a smaller one. *)
Theorem ClipTileZoomByMaxDataZoom_min (upperScale zoom zoom' : Z) :
  ClipTileZoomByMaxDataZoom upperScale zoom = Z.min zoom upperScale /\
  ClipTileZoomByMaxDataZoom upperScale zoom <= upperScale /\
  ClipTileZoomByMaxDataZoom upperScale zoom <= zoom /\
  (zoom <= upperScale -> ClipTileZoomByMaxDataZoom upperScale zoom = zoom) /\
  ClipTileZoomByMaxDataZoom upperScale
    (ClipTileZoomByMaxDataZoom upperScale zoom)
  = ClipTileZoomByMaxDataZoom upperScale zoom /\
  (zoom <= zoom' ->
   ClipTileZoomByMaxDataZoom upperScale zoom
   <= ClipTileZoomByMaxDataZoom upperScale zoom') /\
  (is_int upperScale -> is_int zoom ->
   is_int (ClipTileZoomByMaxDataZoom upperScale zoom)).
Proof.
  unfold ClipTileZoomByMaxDataZoom, is_int.
  destruct (zoom <=? upperScale) eqn:E; destruct (zoom' <=? upperScale) eqn:E';
    rewrite ?E, ?Z.leb_refl; repeat split; try lia.
Qed.

Lemma elem_of_int_range (lo hi z : Z) : z ∈ int_range lo hi <-> lo <= z < hi.
Proof.
  unfold int_range. rewrite list_elem_of_fmap. split.
  - intros (i & -> & Hi). apply list_elem_of_In, in_seq in Hi. lia.
  - intros Hz. exists (Z.to_nat (z - lo)). split; [lia|].
    apply list_elem_of_In, in_seq. lia.
Qed.

Lemma length_int_range (lo hi : Z) :
  length (int_range lo hi) = Z.to_nat (hi - lo).
Proof. unfold int_range. rewrite length_map, length_seq. reflexivity. Qed.

Lemma NoDup_int_range (lo hi : Z) : NoDup (int_range lo hi).
Proof.
  unfold int_range. apply NoDup_fmap_2; [intros i j Hij; lia|].
  apply NoDup_ListNoDup, seq_NoDup.
Qed.

(** X13: with a callback, [CalcTilesCoverage] calls it once for every
    tile of the returned range, the upper bounds excluded, and for no
    other tile; so it makes (maxX - minX) * (maxY - minY) calls, none when
    the range is empty in either direction, and none without a
    callback. *)
Theorem CalcTilesCoverage_calls_cover (result : CoverageResult) :
  (forall tileX tileY,
     (tileX, tileY) ∈ CalcTilesCoverage_calls true result <->
     m_minTileX result <= tileX < m_maxTileX result /\
     m_minTileY result <= tileY < m_maxTileY result) /\
  NoDup (CalcTilesCoverage_calls true result) /\
  length (CalcTilesCoverage_calls true result)
  = (Z.to_nat (m_maxTileX result - m_minTileX result)
     * Z.to_nat (m_maxTileY result - m_minTileY result))%nat /\
  CalcTilesCoverage_calls false result = [].
Proof.
  destruct result as [x0 x1 y0 y1]. unfold CalcTilesCoverage_calls.
  cbn [m_minTileX m_maxTileX m_minTileY m_maxTileY].
  split; [|split; [|split; [|reflexivity]]].
  - intros tileX tileY. rewrite list_elem_of_In, in_flat_map. split.
    + intros (y & Hy & Hin).
      apply list_elem_of_In, elem_of_int_range in Hy.
      apply list_elem_of_In, list_elem_of_fmap in Hin as (x & [= -> ->] & Hx).
      apply elem_of_int_range in Hx. lia.
    + intros [Hx Hy]. exists tileY. split.
      * apply list_elem_of_In, elem_of_int_range. exact Hy.
      * apply list_elem_of_In, list_elem_of_fmap. exists tileX.
        split; [reflexivity|]. apply elem_of_int_range. exact Hx.
  - pose proof (NoDup_int_range y0 y1) as Hnd.
    induction (int_range y0 y1) as [|y ys IH]; cbn [flat_map].
    + apply NoDup_nil. exact I.
    + apply NoDup_cons in Hnd as [Hy Hnd].
      apply NoDup_app. split; [|split].
      * apply NoDup_fmap_2; [intros a b [= ->]; reflexivity|].
        apply NoDup_int_range.
      * intros [x y'] Hin1 Hin2.
        apply list_elem_of_fmap in Hin1 as (x' & [= -> ->] & _).
        apply list_elem_of_In, in_flat_map in Hin2 as (y2 & Hy2 & Hin2).
        apply list_elem_of_In, list_elem_of_fmap in Hin2 as (x2 & [= _ ->] & _).
        apply Hy. apply list_elem_of_In. exact Hy2.
      * apply IH, Hnd.
  - rewrite <- (length_int_range y0 y1).
    induction (int_range y0 y1) as [|y ys IH]; cbn [flat_map length].
    + lia.
    + rewrite length_app, length_map, length_int_range, IH. lia.
Qed.

(** * Properties of the layer statistics of the eye *)

Lemma find_if_Some {A : Type} (pred : A -> bool) (l : list A) :
  forall i x, find_if pred l = Some (i, x) ->
    l !! i = Some x /\ pred x = true.
Proof.
  induction l as [|y l IH]; intros i x Hfind; [discriminate|].
  cbn [find_if] in Hfind. destruct (pred y) eqn:Ey.
  - injection Hfind as <- <-. auto.
  - destruct (find_if pred l) as [[j z]|]; [|discriminate].
    injection Hfind as <- <-. apply (IH j z eq_refl).
Qed.

Lemma find_if_None {A : Type} (pred : A -> bool) (l : list A) :
  find_if pred l = None -> forall x, x ∈ l -> pred x = false.
Proof.
  induction l as [|y l IH]; intros Hfind x Hx.
  - apply elem_of_nil in Hx. contradiction.
  - cbn [find_if] in Hfind. destruct (pred y) eqn:Ey; [discriminate|].
    destruct (find_if pred l) as [[j z]|] eqn:El; [discriminate|].
    apply elem_of_cons in Hx as [->|Hx]; [exact Ey | apply IH; auto].
Qed.

Section EyeFacts.
Context {LayerType UseCount Time Rest Subscriber : Type}.
Context `{EqDecision LayerType}.
Variable increment : UseCount -> UseCount.
Variable Layer_default : @eye.Layer LayerType UseCount Time.

Local Abbreviation Layer := (@eye.Layer LayerType UseCount Time).
Local Abbreviation Eye := (@eye.Eye LayerType UseCount Time Rest Subscriber).
Local Abbreviation edit := (eye.RegisterLayerShown_edit increment Layer_default).
Local Abbreviation register :=
  (eye.RegisterLayerShown (Rest := Rest) (Subscriber := Subscriber)
     increment Layer_default).
Local Abbreviation register_all :=
  (eye.RegisterLayerShown_all (Rest := Rest) (Subscriber := Subscriber)
     increment Layer_default).
Local Abbreviation types := (map (@eye.m_type LayerType UseCount Time)).
Local Abbreviation count0 := (eye.m_useCount Layer_default).

Lemma RegisterLayerShown_edit_cons_eq (type : LayerType) (now : Time)
  (x : Layer) (l : list Layer) :
  eye.m_type x = type ->
  edit type now (x :: l)
  = (eye.mkLayer (eye.m_type x) (increment (eye.m_useCount x)) now :: l,
     eye.mkLayer (eye.m_type x) (increment (eye.m_useCount x)) now).
Proof.
  intros Hx. unfold eye.RegisterLayerShown_edit. cbn [find_if].
  rewrite bool_decide_eq_true_2 by exact Hx. reflexivity.
Qed.

Lemma RegisterLayerShown_edit_cons_ne (type : LayerType) (now : Time)
  (x : Layer) (l : list Layer) :
  eye.m_type x <> type ->
  edit type now (x :: l)
  = (x :: fst (edit type now l), snd (edit type now l)).
Proof.
  intros Hx. unfold eye.RegisterLayerShown_edit. cbn [find_if].
  rewrite bool_decide_eq_false_2 by exact Hx.
  destruct (find_if _ l) as [[i y]|]; reflexivity.
Qed.

Lemma use_count_cons (ty : LayerType) (x : Layer) (l : list Layer) :
  eye.use_count ty (x :: l)
  = if decide (eye.m_type x = ty) then Some (eye.m_useCount x)
    else eye.use_count ty l.
Proof.
  unfold eye.use_count. cbn [find_if].
  destruct (decide (eye.m_type x = ty)) as [Hx|Hx].
  - rewrite bool_decide_eq_true_2 by exact Hx. reflexivity.
  - rewrite bool_decide_eq_false_2 by exact Hx.
    destruct (find_if _ l) as [[i y]|]; reflexivity.
Qed.

(** The edit and the recorded use counts. *)
Lemma RegisterLayerShown_edit_use_count (type ty : LayerType) (now : Time)
  (l : list Layer) :
  eye.use_count ty (fst (edit type now l))
  = if decide (ty = type)
    then Some (increment (default count0 (eye.use_count type l)))
    else eye.use_count ty l.
Proof.
  induction l as [|x l IH].
  - unfold eye.RegisterLayerShown_edit. cbn [find_if fst app].
    rewrite use_count_cons. cbn [eye.m_type eye.m_useCount].
    destruct (decide (type = ty)) as [Heq|Hne];
      destruct (decide (ty = type)) as [Heq'|Hne']; try congruence; reflexivity.
  - destruct (decide (eye.m_type x = type)) as [Hx|Hx].
    + rewrite RegisterLayerShown_edit_cons_eq by exact Hx. cbn [fst].
      rewrite !use_count_cons. cbn [eye.m_type eye.m_useCount].
      destruct (decide (ty = type)) as [->|Hne].
      * rewrite !decide_True by exact Hx. reflexivity.
      * destruct (decide (eye.m_type x = ty)); [congruence | reflexivity].
    + rewrite RegisterLayerShown_edit_cons_ne by exact Hx. cbn [fst].
      rewrite !use_count_cons, IH.
      destruct (decide (ty = type)) as [->|Hne].
      * rewrite !decide_False by exact Hx. reflexivity.
      * reflexivity.
Qed.

(** The edit and the layer types on record. *)
Lemma RegisterLayerShown_edit_types (type : LayerType) (now : Time)
  (l : list Layer) :
  ((type ∈ types l) /\ types (fst (edit type now l)) = types l) \/
  ((type ∉ types l) /\ types (fst (edit type now l)) = types l ++ [type]).
Proof.
  induction l as [|x l IH].
  - right. split; [apply not_elem_of_nil | reflexivity].
  - destruct (decide (eye.m_type x = type)) as [Hx|Hx].
    + left. rewrite RegisterLayerShown_edit_cons_eq by exact Hx.
      split; [cbn [map]; rewrite Hx; left | reflexivity].
    + rewrite RegisterLayerShown_edit_cons_ne by exact Hx. cbn [fst map].
      destruct IH as [[Hin E]|[Hnot E]]; [left|right]; rewrite E.
      * split; [right; exact Hin | reflexivity].
      * split; [|reflexivity]. intros Hin.
        apply elem_of_cons in Hin as [Hin|Hin]; [congruence | contradiction].
Qed.

Lemma RegisterLayerShown_edit_layer (type : LayerType) (now : Time)
  (l : list Layer) :
  let layer := snd (edit type now l) in
  eye.m_type layer = type /\ eye.m_lastTimeUsed layer = now /\
  eye.m_useCount layer = increment (default count0 (eye.use_count type l)) /\
  layer ∈ fst (edit type now l).
Proof.
  unfold eye.RegisterLayerShown_edit, eye.use_count.
  destruct (find_if _ l) as [[i x]|] eqn:Ef; cbn.
  - destruct (find_if_Some _ _ _ _ Ef) as [Hl Hp].
    apply bool_decide_eq_true_1 in Hp.
    repeat split; [exact Hp|].
    apply list_elem_of_lookup. exists i.
    apply list_lookup_insert_eq. eapply lookup_lt_Some; eauto.
  - repeat split. apply elem_of_app. right. left.
Qed.

(** X14: one [RegisterLayerShown].  When saving fails the eye is left as
    it was and no task is posted.  When it succeeds the task carries the
    layer of the requested type with the clock reading and a use count one
    step above the recorded one (above the default for a type not yet on
    record); this layer is on record, a layer is added only for a type not
    yet on record, and the rest of the info and the subscribers are
    untouched. *)
Theorem RegisterLayerShown_step (type : LayerType) (now : Time) (e : Eye) :
  register type now false e = (e, None) /\
  exists layer,
    snd (register type now true e) = Some layer /\
    eye.m_type layer = type /\ eye.m_lastTimeUsed layer = now /\
    eye.m_useCount layer
    = increment
        (default count0 (eye.use_count type (eye.m_layers (eye.m_info e)))) /\
    layer ∈ eye.m_layers (eye.m_info (fst (register type now true e))) /\
    length (eye.m_layers (eye.m_info (fst (register type now true e))))
    = (length (eye.m_layers (eye.m_info e))
       + match eye.use_count type (eye.m_layers (eye.m_info e)) with
         | Some _ => 0
         | None => 1
         end)%nat /\
    eye.m_rest (eye.m_info (fst (register type now true e)))
    = eye.m_rest (eye.m_info e) /\
    eye.m_subscribers (fst (register type now true e)) = eye.m_subscribers e.
Proof.
  unfold eye.RegisterLayerShown.
  destruct (RegisterLayerShown_edit_layer type now
              (eye.m_layers (eye.m_info e))) as (Ht & Hn & Hc & Hin).
  pose proof (eq_refl : eye.use_count type (eye.m_layers (eye.m_info e)) = _)
    as Huc.
  assert (Hlen : length (fst (edit type now (eye.m_layers (eye.m_info e))))
                 = (length (eye.m_layers (eye.m_info e))
                    + match eye.use_count type (eye.m_layers (eye.m_info e)) with
                      | Some _ => 0
                      | None => 1
                      end)%nat).
  { unfold eye.RegisterLayerShown_edit, eye.use_count.
    destruct (find_if _ (eye.m_layers (eye.m_info e))) as [[i x]|]; cbn.
    - rewrite length_insert. lia.
    - rewrite length_app. cbn. lia. }
  destruct (edit type now (eye.m_layers (eye.m_info e))) as [layers' layer].
  cbn [fst snd negb] in *. split; [reflexivity|].
  exists layer. repeat split; assumption.
Qed.

Lemma RegisterLayerShown_layers (type : LayerType) (now : Time)
  (saved : bool) (e : Eye) :
  eye.m_layers (eye.m_info (fst (register type now saved e)))
  = if saved then fst (edit type now (eye.m_layers (eye.m_info e)))
    else eye.m_layers (eye.m_info e).
Proof.
  unfold eye.RegisterLayerShown.
  destruct (edit type now (eye.m_layers (eye.m_info e))) as [layers' layer].
  destruct saved; reflexivity.
Qed.

(** X15: any sequence of [RegisterLayerShown] calls keeps one layer per
    type, and counts exactly: the use count on record for a type is the
    earlier one (or the default) stepped once for each call for that type
    whose saving succeeded; a type with no such call is as it was. *)
Theorem RegisterLayerShown_counts
  (calls : list (LayerType * Time * bool)) (e : Eye) :
  NoDup (types (eye.m_layers (eye.m_info e))) ->
  NoDup (types (eye.m_layers (eye.m_info (register_all calls e)))) /\
  forall type,
    eye.use_count type (eye.m_layers (eye.m_info (register_all calls e)))
    = match eye.saved_calls type calls with
      | O => eye.use_count type (eye.m_layers (eye.m_info e))
      | S k =>
          Some (Nat.iter (S k) increment
                  (default count0
                     (eye.use_count type (eye.m_layers (eye.m_info e)))))
      end.
Proof.
  revert e. induction calls as [|[[ty now] saved] calls IH]; intros e Hnd.
  - split; [exact Hnd | reflexivity].
  - cbn [eye.RegisterLayerShown_all].
    set (e1 := fst (register ty now saved e)).
    pose proof (RegisterLayerShown_layers ty now saved e) as Hl.
    fold e1 in Hl.
    assert (Hnd1 : NoDup (types (eye.m_layers (eye.m_info e1)))).
    { rewrite Hl. destruct saved; [|exact Hnd].
      destruct (RegisterLayerShown_edit_types ty now
                  (eye.m_layers (eye.m_info e))) as [[_ E]|[Hnot E]];
        rewrite E; [exact Hnd|].
      apply NoDup_app. split; [exact Hnd|]. split.
      - intros x Hx Hx'. apply list_elem_of_singleton in Hx'. subst x.
        contradiction.
      - apply NoDup_singleton. }
    destruct (IH e1 Hnd1) as [IHnd IHc]. split; [exact IHnd|].
    intros type. rewrite IHc, Hl. unfold eye.saved_calls.
    cbn [List.filter fst snd].
    destruct saved; cbn [andb].
    + rewrite RegisterLayerShown_edit_use_count.
      destruct (decide (type = ty)) as [->|Hne].
      * rewrite bool_decide_eq_true_2 by reflexivity. cbn [andb length].
        destruct (length _) as [|k]; [reflexivity|].
        rewrite (Nat.iter_succ_r (S k)). reflexivity.
      * rewrite bool_decide_eq_false_2 by congruence. reflexivity.
    + rewrite andb_false_r. reflexivity.
Qed.
End EyeFacts.

Lemma RegisterLayerShown_counts_witness :
  eye.use_count 1%nat
    (eye.m_layers
       (eye.m_info
          (eye.RegisterLayerShown_all S (eye.mkLayer 0%nat 0%nat 0%nat)
             [(1, 10, true); (2, 11, true); (1, 12, false); (1, 13, true)]%nat
             (eye.mkEye (eye.mkInfo [] tt) (@nil unit)))))
  = Some 2%nat.
Proof.
  destruct (RegisterLayerShown_counts S (eye.mkLayer 0%nat 0%nat 0%nat)
              [(1, 10, true); (2, 11, true); (1, 12, false); (1, 13, true)]%nat
              (eye.mkEye (eye.mkInfo [] tt) (@nil unit)))
    as [_ Hc].
  - apply NoDup_nil. exact I.
  - rewrite (Hc 1%nat). reflexivity.
Defined.

(** * What every schedule has in common *)

Lemma StronglySorted_Entry_le_ids (l : list Entry) :
  StronglySorted Entry_le l -> StronglySorted Z.le (map m_osmId l).
Proof.
  induction 1 as [|x l Hs IH Hall]; cbn [map]; constructor; [exact IH|].
  apply Forall_fmap. exact Hall.
Qed.

(** When the decoder's result does not depend on the stats, neither do
    the pairs emplaced for the lines. *)
Lemma loaded_pairs_regardless_of_stats
  (to_any : string -> option Z)
  (DeserializeFromJSON :
     string -> ParsingStats -> Entry -> bool * Entry * ParsingStats)
  (lines : list string) :
  decodes_regardless_of_stats DeserializeFromJSON ->
  forall stats1 stats2,
    fst (loaded_pairs to_any DeserializeFromJSON lines stats1)
    = fst (loaded_pairs to_any DeserializeFromJSON lines stats2).
Proof.
  intros Hpure. induction lines as [|line lines IH]; intros stats1 stats2.
  - reflexivity.
  - cbn [loaded_pairs].
    assert (Hr : fst (ReadEntryLine to_any DeserializeFromJSON line stats1)
                 = fst (ReadEntryLine to_any DeserializeFromJSON line stats2)).
    { unfold ReadEntryLine.
      destruct (string_empty line); [reflexivity|].
      destruct (find " "%char line) as [i|]; [|reflexivity].
      destruct (to_any (substr_to i line)) as [v|]; [|reflexivity].
      specialize (Hpure (substr_from (i + 1) line) stats1 stats2
                    (set_osmId Entry_default (static_cast_uint64 v))).
      destruct (DeserializeFromJSON _ stats1 _) as [[ok1 e1] st1].
      destruct (DeserializeFromJSON _ stats2 _) as [[ok2 e2] st2].
      cbn [fst] in Hpure. injection Hpure as -> ->.
      destruct ok2; cbn [negb]; [|reflexivity].
      destruct (Type_eqb (m_type e2) Count); reflexivity. }
    destruct (ReadEntryLine to_any DeserializeFromJSON line stats1)
      as [r1 st1].
    destruct (ReadEntryLine to_any DeserializeFromJSON line stats2)
      as [r2 st2].
    cbn [fst] in Hr. subst r2.
    specialize (IH st1 st2).
    destruct (loaded_pairs to_any DeserializeFromJSON lines st1) as [l1 st1'].
    destruct (loaded_pairs to_any DeserializeFromJSON lines st2) as [l2 st2'].
    cbn [fst] in *. rewrite IH. reflexivity.
Qed.

(** X16: two runs on the same input, with any reader counts of at least
    one and any hand-outs of the lines, return the same entries up to
    their order and the same sequence of identifiers: only entries that
    share an identifier can change places.  The payload decoder leaves the
    identifier alone and its result does not depend on the stats, so that
    the entries do not hang on how the updates of the shared stats
    interleave; the stats the two runs started from may differ, and
    nothing is said of the stats they end with. *)
Theorem ReadEntries_identifier_sequence_fixed
  (entry_lt : Entry -> Entry -> bool)
  (to_any : string -> option Z)
  (DeserializeFromJSON :
     string -> ParsingStats -> Entry -> bool * Entry * ParsingStats)
  (lines : list string) (stats1 stats2 : ParsingStats)
  (n1 n2 : nat) (sched1 sched2 : list nat) :
  keeps_osmId DeserializeFromJSON ->
  decodes_regardless_of_stats DeserializeFromJSON ->
  (1 <= n1)%nat -> (1 <= n2)%nat ->
  valid_schedule (Nat.min n1 8) lines sched1 ->
  valid_schedule (Nat.min n2 8) lines sched2 ->
  let out1 :=
    fst (ReadEntries entry_lt to_any DeserializeFromJSON n1 sched1 lines
           stats1) in
  let out2 :=
    fst (ReadEntries entry_lt to_any DeserializeFromJSON n2 sched2 lines
           stats2) in
  out1 ≡ₚ out2 /\
  map m_osmId out1 = map m_osmId out2 /\
  Sorted Z.le (map m_osmId out1).
Proof.
  intros Hkeeps Hpure H1 H2 Hs1 Hs2 out1 out2. subst out1 out2.
  destruct (ReadEntries_spec entry_lt to_any DeserializeFromJSON n1 sched1
              lines stats1 H1 Hs1
              (loaded_pairs_keyed to_any DeserializeFromJSON lines stats1
                 Hkeeps)) as (_ & Hp1 & Hsorted1).
  destruct (ReadEntries_spec entry_lt to_any DeserializeFromJSON n2 sched2
              lines stats2 H2 Hs2
              (loaded_pairs_keyed to_any DeserializeFromJSON lines stats2
                 Hkeeps)) as (_ & Hp2 & Hsorted2).
  rewrite (loaded_pairs_regardless_of_stats to_any DeserializeFromJSON lines
             Hpure stats2 stats1) in Hp2.
  split; [rewrite Hp1, Hp2; reflexivity|]. split.
  - apply (StronglySorted_unique Z.le).
    + apply StronglySorted_Entry_le_ids, Hsorted1.
    + apply StronglySorted_Entry_le_ids, Hsorted2.
    + rewrite Hp1, Hp2. reflexivity.
  - apply StronglySorted_Sorted, StronglySorted_Entry_le_ids, Hsorted1.
Qed.

Lemma DeserializeFromJSON_model_regardless_of_stats :
  decodes_regardless_of_stats DeserializeFromJSON_model.
Proof.
  intros payload stats1 stats2 entry. unfold DeserializeFromJSON_model.
  destruct payload as [|c rest]; [reflexivity|].
  destruct (Ascii.eqb c "{"%char); [|reflexivity].
  destruct (String.eqb rest "}"); reflexivity.
Qed.

Lemma ReadEntries_identifier_sequence_fixed_witness :
  map m_osmId
    (fst (ReadEntries Entry_lt to_int64 DeserializeFromJSON_model 1
            [0; 0]%nat same_id_lines stats_zero))
  = map m_osmId
      (fst (ReadEntries Entry_lt to_int64 DeserializeFromJSON_model 2
              [1; 0]%nat same_id_lines (mkStats 7 3 0))).
Proof.
  refine (proj1 (proj2 (ReadEntries_identifier_sequence_fixed Entry_lt
                          to_int64 DeserializeFromJSON_model same_id_lines
                          stats_zero (mkStats 7 3 0) 1 2 [0; 0]%nat [1; 0]%nat
                          DeserializeFromJSON_model_keeps_osmId
                          DeserializeFromJSON_model_regardless_of_stats
                          _ _ _ _))).
  - lia.
  - lia.
  - split; [reflexivity|]. repeat constructor.
  - split; [reflexivity|]. repeat constructor.
Defined.

(** * The counters when one worker reads the whole stream *)

Lemma ReadEntries_all_lines_to_one
  (entry_lt : Entry -> Entry -> bool)
  (to_any : string -> option Z)
  (DeserializeFromJSON :
     string -> ParsingStats -> Entry -> bool * Entry * ParsingStats)
  (readersCount t : nat) (lines : list string) (stats : ParsingStats) :
  (t < Nat.min readersCount 8)%nat ->
  ReadEntries entry_lt to_any DeserializeFromJSON readersCount
    (replicate (length lines) t) lines stats
  = (values (fst (ReadEntryMap to_any DeserializeFromJSON lines stats)),
     snd (ReadEntryMap to_any DeserializeFromJSON lines stats)).
Proof.
  intros Ht. unfold ReadEntries, ReadEntryMap.
  pose proof (ReadEntries_tasks_length readersCount) as Hlen.
  rewrite map_const_replicate, Hlen.
  destruct (ReadEntries_tasks readersCount) as [|t0 tasks]; [simpl in Hlen; lia|].
  rewrite ReadEntryMap_threads_one_busy.
  rewrite alter_replicate_nil by exact Ht.
  rewrite UnionEntries_among_empty. reflexivity.
Qed.

(** X9: the two counters are exact when a single worker reads the whole
    stream: [ReadEntryMap] run alone, hence [ReadEntries] with one reader,
    or with more readers of which one obtains every line.  When the
    payload decoder leaves them alone, [m_numLoaded] grows by the number
    of entries emplaced (the number returned) and [m_badOsmIds] by the
    number of lines that are not empty and have no space or an undecodable
    token, both as 64-bit counters; every line counts at most once. *)
Theorem ReadEntryMap_counters_exact
  (entry_lt : Entry -> Entry -> bool)
  (to_any : string -> option Z)
  (DeserializeFromJSON :
     string -> ParsingStats -> Entry -> bool * Entry * ParsingStats)
  (lines : list string) (stats : ParsingStats) :
  keeps_reader_counters DeserializeFromJSON ->
  is_uint64 (m_numLoaded stats) -> is_uint64 (m_badOsmIds stats) ->
  let bad := length (List.filter (is_bad_id_line to_any) lines) in
  let alone := ReadEntryMap to_any DeserializeFromJSON lines stats in
  (m_numLoaded (snd alone)
   = (m_numLoaded stats + Z.of_nat (length (fst alone))) mod uint64_modulus /\
   m_badOsmIds (snd alone)
   = (m_badOsmIds stats + Z.of_nat bad) mod uint64_modulus /\
   (length (fst alone) + bad <= length lines)%nat) /\
  (forall readersCount t,
     (t < Nat.min readersCount 8)%nat ->
     let run :=
       ReadEntries entry_lt to_any DeserializeFromJSON readersCount
         (replicate (length lines) t) lines stats in
     m_numLoaded (snd run)
     = (m_numLoaded stats + Z.of_nat (length (fst run))) mod uint64_modulus /\
     m_badOsmIds (snd run)
     = (m_badOsmIds stats + Z.of_nat bad) mod uint64_modulus /\
     (length (fst run) + bad <= length lines)%nat).
Proof.
  intros Hkeeps Hn0 Hb0 bad alone.
  assert (Halone :
            m_numLoaded (snd alone)
            = (m_numLoaded stats + Z.of_nat (length (fst alone)))
              mod uint64_modulus /\
            m_badOsmIds (snd alone)
            = (m_badOsmIds stats + Z.of_nat bad) mod uint64_modulus /\
            (length (fst alone) + bad <= length lines)%nat).
  { subst alone bad. unfold ReadEntryMap.
    destruct (ReadEntryMap_loop_spec to_any DeserializeFromJSON lines []
                stats) as (_ & Hperm & _ & Hstats); [constructor|].
    cbn [app] in Hperm.
    destruct (loaded_pairs_counters to_any DeserializeFromJSON lines stats
                Hkeeps) as [Hb Hl].
    pose proof (loaded_pairs_bound to_any DeserializeFromJSON lines stats)
      as Hbound.
    rewrite Hstats, Hperm, Hb, Hl.
    rewrite !iter_incr64 by assumption. auto. }
  split; [exact Halone|].
  intros readersCount t Ht run. subst run.
  rewrite (ReadEntries_all_lines_to_one entry_lt to_any DeserializeFromJSON
             readersCount t lines stats Ht).
  cbn [fst snd]. unfold values. rewrite length_map. exact Halone.
Qed.

Lemma ReadEntryMap_counters_exact_witness :
  m_numLoaded
    (snd (ReadEntryMap to_int64 DeserializeFromJSON_model example_lines
            stats_zero)) = 2 /\
  m_badOsmIds
    (snd (ReadEntryMap to_int64 DeserializeFromJSON_model example_lines
            stats_zero)) = 1.
Proof.
  destruct (ReadEntryMap_counters_exact Entry_lt to_int64
              DeserializeFromJSON_model example_lines stats_zero
              DeserializeFromJSON_model_keeps_reader_counters)
    as ((Hn & Hb & _) & _).
  - unfold is_uint64, uint64_modulus. simpl. lia.
  - unfold is_uint64, uint64_modulus. simpl. lia.
  - rewrite Hn, Hb. split; reflexivity.
Defined.
